(** * The Agent class of src/agent.py: conversation buffer and tool-dispatch loop

    The class keeps a list of turns ([messages]), sends it to a remote
    completion provider, runs the tools the provider asks for and sends their
    results back, until the provider stops asking.  The provider
    ([litellm.completion]), the JSON decoder and the tool callables are
    external collaborators: they are taken as an interface ([Externals]) and
    every theorem holds for all of them.

    Python mutates [self] in place and an exception leaves the mutations
    made so far.  The embedding therefore threads a [State] (the agent, the
    outside world, the record of what crossed the boundary) through a monad
    whose computations always give back a state, also when they raise. *)

From Stdlib Require Import QArith.
From stdpp Require Import gmap strings list.

(** * The program *)

(** ** Data *)

(** Exceptions.  [except Exception] catches every class derived from
    [Exception]; [KeyboardInterrupt], [SystemExit] and [GeneratorExit] derive
    from [BaseException] only and pass through such a handler. *)
Inductive exn :=
| KeyError (key : string)          (* dict[key] on a missing key *)
| AttributeError (attr : string)   (* obj.attr on an object without it *)
| JSONDecodeError (doc : string)   (* json.loads on a malformed document *)
| OtherException (what : string)   (* any other class derived from Exception *)
| NonException (what : string).    (* BaseException outside Exception *)

Definition is_Exception (e : exn) : bool :=
  match e with
  | NonException _ => false
  | _ => true
  end.

(** What a call to an external collaborator gives back. *)
Inductive returned (A : Type) :=
| Returns (a : A)
| Raises (e : exn).
Arguments Returns {A} a.
Arguments Raises {A} e.

(** How a method call ends.  [Diverge] is the model's only: the recursion of
    [_run_tools] has no bound in the source, the embedding gives it fuel
    (one unit per round of tools; the interpreter's own recursion limit is
    not modelled). *)
Inductive outcome (A : Type) :=
| Ret (a : A)
| Raise (e : exn)
| Diverge.
Arguments Ret {A} a.
Arguments Raise {A} e.
Arguments Diverge {A}.

(** [tool_call.function] and [tool_call] of a provider response. *)
Record Function := { fn_name : string; fn_arguments : string }.
Record ToolCall := { tc_id : string; tc_function : Function }.

(** The [tool_calls] attribute of a response message: reading it may raise
    (the attribute is missing), give [None], or give a list. *)
Inductive ToolCallsField :=
| TCMissing
| TCNone
| TCList (l : list ToolCall).

(** [response.choices[0].message].  Both call sites apply this projection
    right after the provider call and outside any handler of their own, so a
    response without a first choice is the same as a provider call that
    raises; the provider is modelled up to the projection.  [content] is
    the text; no method looks into it. *)
Record Response := { content : string; tool_calls : ToolCallsField }.

Inductive Role := system | user | assistant | tool.

(** An element of [self.messages]: a dict with role and content, the dict of
    a tool result, or a provider message object appended as it came. *)
Inductive Message :=
| Turn (role : Role) (text : string)
| ToolResult (tool_call_id : string) (fname : string) (text : string)
| FromProvider (m : Response).

(** ** External collaborators *)

(** Python values that the agent only passes along: the tool descriptors and
    the decoded arguments. *)
Class PyData := {
  PyObject : Type;
  json_loads : string -> option PyObject;   (* None: raises JSONDecodeError *)
  py_str : PyObject -> string               (* str(), used by the f-string *)
}.

(** The keyword arguments of [completion]; [req_tools] is [None] when the
    keyword is not passed. *)
Record Request `{PyData} := {
  req_model : string;
  req_messages : list Message;
  req_tools : option (list PyObject);
  req_temperature : Q
}.

(** The provider and the world it lives in.  [World] is everything outside
    the agent that a call may read or change. *)
Class Externals `{PyData} := {
  World : Type;
  completion : Request -> World -> World * returned Response
}.

Section Agent.
Context {Data : PyData} {Ext : Externals}.

(** A registered callable, applied to the decoded arguments as keyword
    arguments: it may read and change the world, and returns a string or
    raises (also when the arguments do not fit its parameters).  It is not
    handed the agent. *)
Definition Tool : Type := PyObject -> World -> World * returned string.

(** The attributes [__init__] sets.  [messages] is the session state. *)

Record Agent := {
  name : string;
  model : string;
  system_prompt : string;
  tools : list PyObject;
  available_tools : gmap string Tool;
  messages : list Message
}.

(** What crossed the boundary of the agent, oldest first: console lines and
    the calls to the provider and to the tools with what they gave back. *)
Inductive Event :=
| Print (text : string)
| Completion (req : Request) (res : returned Response)
| ToolRun (fname : string) (args : PyObject) (res : returned string).

Record State := {
  self : Agent;
  world : World;
  trace : list Event
}.

(** ** The monad: state, exceptions, and running out of fuel *)

Definition M (A : Type) : Type := State -> State * outcome A.

Definition ret {A} (a : A) : M A := fun s => (s, Ret a).
Definition raise {A} (e : exn) : M A := fun s => (s, Raise e).
Definition diverge {A} : M A := fun s => (s, Diverge).

Definition bind {A B} (m : M A) (k : A -> M B) : M B :=
  fun s =>
    match m s with
    | (s', Ret a) => k a s'
    | (s', Raise e) => (s', Raise e)
    | (s', Diverge) => (s', Diverge)
    end.

Notation "x <- m ;; k" := (bind m (fun x => k))
  (at level 100, m at next level, right associativity).
Notation "m ;; k" := (bind m (fun _ => k))
  (at level 100, right associativity).

(** [try: body except Exception: handler].  The handler starts from the
    state the body left. *)
Definition try_except {A} (body : M A) (handler : exn -> M A) : M A :=
  fun s =>
    match body s with
    | (s', Raise e) => if is_Exception e then handler e s' else (s', Raise e)
    | r => r
    end.

(** [for x in l: body] *)
Fixpoint for_each {A} (l : list A) (body : A -> M unit) : M unit :=
  match l with
  | [] => ret tt
  | x :: l' => body x ;; for_each l' body
  end.

(** ** Primitive effects *)

Definition get_self : M Agent := fun s => (s, Ret (self s)).

Definition set_messages (l : list Message) (a : Agent) : Agent :=
  {| name := name a; model := model a; system_prompt := system_prompt a;
     tools := tools a; available_tools := available_tools a;
     messages := l |}.

Definition with_self (f : Agent -> Agent) : M unit :=
  fun s => ({| self := f (self s); world := world s; trace := trace s |}, Ret tt).

(** [self.messages.append(m)] *)
Definition messages_append (m : Message) : M unit :=
  with_self (fun a => set_messages (messages a ++ [m]) a).

(** [self.messages = []] *)
Definition messages_clear : M unit := with_self (set_messages []).

(** One more event at the end of the trace. *)
Definition log (ev : Event) (s : State) : State :=
  {| self := self s; world := world s; trace := trace s ++ [ev] |}.

Definition nl : string := String (Ascii.ascii_of_nat 10) "".
(** colorama's [Fore.GREEN] *)
Definition Fore_GREEN : string := String (Ascii.ascii_of_nat 27) "[32m".

(** [print(text)] *)
Definition print (text : string) : M unit := fun s => (log (Print text) s, Ret tt).

(** A call of [litellm.completion] *)
Definition call_completion (req : Request) : M Response :=
  fun s =>
    let '(w, r) := completion req (world s) in
    let s' := log (Completion req r)
                {| self := self s; world := w; trace := trace s |} in
    match r with
    | Returns m => (s', Ret m)
    | Raises e => (s', Raise e)
    end.

(** The call of a registered callable on the decoded keyword arguments. *)
Definition call_tool (fname : string) (f : Tool) (args : PyObject) : M string :=
  fun s =>
    let '(w, r) := f args (world s) in
    let s' := log (ToolRun fname args r)
                {| self := self s; world := w; trace := trace s |} in
    match r with
    | Returns x => (s', Ret x)
    | Raises e => (s', Raise e)
    end.

(** [response_message.tool_calls] *)
Definition get_tool_calls (m : Response) : M (option (list ToolCall)) :=
  match tool_calls m with
  | TCMissing => raise (AttributeError "tool_calls")
  | TCNone => ret None
  | TCList l => ret (Some l)
  end.

(** Truth value of what [tool_calls] holds: [None] and [[]] are false. *)
Definition truthy (tc : option (list ToolCall)) : bool :=
  match tc with
  | Some (_ :: _) => true
  | _ => false
  end.

Definition calls_of (tc : option (list ToolCall)) : list ToolCall :=
  match tc with
  | Some l => l
  | None => []
  end.

(** ** The class *)

(** The list [__init__] and [reset] build. *)
Definition seed (prompt : string) : list Message :=
  if decide (prompt = "") then [] else [Turn system prompt].

(** [Agent.__init__] (lines 18-33) *)
Definition __init__ (name0 model0 : string) (tools0 : list PyObject)
    (available_tools0 : gmap string Tool) (system_prompt0 : string) : Agent :=
  {| name := name0; model := model0; system_prompt := system_prompt0;
     tools := tools0; available_tools := available_tools0;
     messages := seed system_prompt0 |}.

(** [Agent.reset] (lines 43-46) *)
Definition reset : M unit :=
  messages_clear ;;
  a <- get_self ;;
  if decide (system_prompt a = "") then ret tt
  else messages_append (Turn system (system_prompt a)).

(** The literal [0.1] of [_call_llm], as a rational. *)
Definition temperature : Q := 1 # 10.

(** [Agent._call_llm] (lines 107-115); the [tools] keyword is passed when
    [self.tools] is true, that is, not empty. *)
Definition _call_llm : M Response :=
  print (Fore_GREEN +:+ "LLM Call" +:+ nl) ;;
  a <- get_self ;;
  call_completion
    {| req_model := model a;
       req_messages := messages a;
       req_tools := match tools a with [] => None | _ :: _ => Some (tools a) end;
       req_temperature := temperature |}.

(** The body of the [for] loop of [_run_tools] (lines 76-89). *)
Definition run_tool (tool_call : ToolCall) : M unit :=
  let function_name := fn_name (tc_function tool_call) in
  a <- get_self ;;
  function_to_call <-
    match available_tools a !! function_name with
    | Some f => ret f
    | None => raise (KeyError function_name)
    end ;;
  function_args <-
    match json_loads (fn_arguments (tc_function tool_call)) with
    | Some v => ret v
    | None => raise (JSONDecodeError (fn_arguments (tc_function tool_call)))
    end ;;
  print (Fore_GREEN +:+ "Calling tool: " +:+ function_name +:+ nl) ;;
  print (Fore_GREEN +:+ "Arguments: " +:+ py_str function_args +:+ nl) ;;
  function_response <- call_tool function_name function_to_call function_args ;;
  messages_append (ToolResult (tc_id tool_call) function_name function_response).

(** What both handlers print. *)
Definition no_tool_call : string := Fore_GREEN +:+ "No tool call to process" +:+ nl.

(** [Agent._run_tools] (lines 68-105).  The assignment to [response] inside
    [try] is the value of the body; when the body raises, [response] is
    still the one of this round. *)
Fixpoint _run_tools (fuel : nat) (tool_calls0 : list ToolCall) : M Response :=
  match fuel with
  | 0 => diverge
  | S fuel' =>
      for_each tool_calls0 run_tool ;;
      response <- _call_llm ;;
      messages_append (FromProvider response) ;;
      try_except
        (tc <- get_tool_calls response ;;
         if truthy tc then _run_tools fuel' (calls_of tc) else ret response)
        (fun _ => print no_tool_call ;; ret response)
  end.

(** [Agent.execute] (lines 48-66) *)
Definition execute (fuel : nat) : M string :=
  response_message <- _call_llm ;;
  messages_append (FromProvider response_message) ;;
  response_message' <-
    try_except
      (tc <- get_tool_calls response_message ;;
       if truthy tc then _run_tools fuel (calls_of tc) else ret response_message)
      (fun _ => print no_tool_call ;; ret response_message) ;;
  ret (content response_message').

(** [invoke] up to, and without, its call of [reset] (lines 36-39). *)
Definition invoke_before_reset (fuel : nat) (message : string) : M string :=
  a <- get_self ;;
  print (Fore_GREEN +:+ "Calling agent: " +:+ name a +:+ nl) ;;
  messages_append (Turn user message) ;;
  result <- execute fuel ;;
  messages_append (Turn assistant result) ;;
  ret result.

(** [Agent.invoke] (lines 35-41) *)
Definition invoke (fuel : nat) (message : string) : M string :=
  result <- invoke_before_reset fuel message ;;
  reset ;;
  ret result.

End Agent.

(** * Clients of the class, and the vocabulary of the properties *)

(** A call a client makes on an agent. *)
Inductive Call :=
| CallInvoke (message : string)
| CallExecute
| CallReset.

Section Client.
Context {Data : PyData} {Ext : Externals}.

Definition run_call (fuel : nat) (c : Call) : M unit :=
  match c with
  | CallInvoke message => bind (invoke fuel message) (fun _ => ret tt)
  | CallExecute => bind (execute fuel) (fun _ => ret tt)
  | CallReset => reset
  end.

(** The client goes on with the same object whatever a call did, as one
    that catches what the call raised can. *)
Fixpoint run_calls (fuel : nat) (cs : list Call) (s : State) : State :=
  match cs with
  | [] => s
  | c :: cs' => run_calls fuel cs' (run_call fuel c s).1
  end.

(** One [invoke] per message, each on the state the one before left; the
    result lists the state and the outcome after every call. *)
Fixpoint invoke_each (fuel : nat) (msgs : list string) (s : State)
    : list (State * outcome string) :=
  match msgs with
  | [] => []
  | m :: msgs' =>
      let r := invoke fuel m s in
      r :: invoke_each fuel msgs' r.1
  end.

(** ** Reading the trace *)

Definition completion_of (ev : Event) : option (Request * returned Response) :=
  match ev with
  | Completion req res => Some (req, res)
  | _ => None
  end.

Definition response_of (ev : Event) : option Response :=
  match ev with
  | Completion _ (Returns r) => Some r
  | _ => None
  end.

(** The provider calls of a stretch of trace, and the responses that came
    back, in order. *)
Definition completions (d : list Event) : list (Request * returned Response) :=
  omap completion_of d.
Definition responses (d : list Event) : list Response := omap response_of d.

(** What was added to the trace between two states. *)
Definition since (s s' : State) : list Event := drop (length (trace s)) (trace s').

(** A response asks for tools when [tool_calls] reads as a non-empty list. *)
Definition requests_tools (r : Response) : bool :=
  match tool_calls r with
  | TCList (_ :: _) => true
  | _ => false
  end.

(** The turn [run_tool] appends for a request whose callable returned [text]. *)
Definition tool_turn (tc : ToolCall) (text : string) : Message :=
  ToolResult (tc_id tc) (fn_name (tc_function tc)) text.

(** The request the properties speak of: the agent's model, the whole of
    its [messages], the schema unless it is empty, temperature 0.1.  That
    it is the one [_call_llm] sends is [call_llm_eq]. *)
Definition request_of (a : Agent) : Request :=
  {| req_model := model a;
     req_messages := messages a;
     req_tools := if decide (tools a = []) then None else Some (tools a);
     req_temperature := 1 # 10 |}.

(** ** Relations between the state before and after a call *)

(** Nothing of the agent but [messages] differs. *)
Definition only_messages (s s' : State) : Prop :=
  self s' = set_messages (messages (self s')) (self s).

(** The trace is only ever added to. *)
Definition trace_grows (s s' : State) : Prop :=
  exists d, trace s' = trace s ++ d.

(** A provider call carries the agent's model, the fixed temperature, and
    the [tools] keyword exactly when the schema is not empty. *)
Definition sent_by (a : Agent) (ev : Event) : Prop :=
  match ev with
  | Completion req _ =>
      req_model req = model a /\
      req_temperature req = 1 # 10 /\
      req_tools req = (if decide (tools a = []) then None else Some (tools a))
  | _ => True
  end.

Definition sends_well (s s' : State) : Prop :=
  only_messages s s' /\
  exists d, trace s' = trace s ++ d /\ Forall (sent_by (self s)) d.

(** The outcome of a call that passes on what a collaborator gave back. *)
Definition of_returned {A} (r : returned A) : outcome A :=
  match r with
  | Returns x => Ret x
  | Raises e => Raise e
  end.

(** What the tool callables returned over a stretch of trace, in order. *)
Definition tool_result_of (ev : Event) : option string :=
  match ev with
  | ToolRun _ _ (Returns text) => Some text
  | _ => None
  end.
Definition tool_results (d : list Event) : list string := omap tool_result_of d.

(** The [try] statement that [execute] and [_run_tools] both run on the
    response they have just appended: the response it settles on. *)
Definition settle (fuel : nat) (response : Response) : M Response :=
  try_except
    (bind (get_tool_calls response) (fun tc =>
       if truthy tc then _run_tools fuel (calls_of tc) else ret response))
    (fun _ => bind (print no_tool_call) (fun _ => ret response)).


(** The console line the handler adds when reading [tool_calls] raised. *)
Definition diagnostic (r : Response) : list Event :=
  match tool_calls r with
  | TCMissing => [Print no_tool_call]
  | _ => []
  end.

(** ** What a run of the loop leaves in the trace

    [d] is what the run added to the trace and [o] how it ended. *)

(** [_run_tools]: the response it returns is the last one the provider gave,
    and it asks for tools only if the diagnostic was printed; an
    [Exception] it raises came before any response; a response that asks
    for no tool ends the run and is the one returned. *)
Definition run_tools_post (d : list Event) (o : outcome Response) : Prop :=
  match o with
  | Ret r =>
      last (responses d) = Some r /\
      (requests_tools r = true -> Print no_tool_call ∈ d)
  | Raise e => is_Exception e = true -> responses d = []
  | Diverge => True
  end /\
  (forall r0, r0 ∈ responses d -> requests_tools r0 = false ->
     o = Ret r0 /\
     exists d0 req, d = d0 ++ Completion req (Returns r0) :: diagnostic r0).

(** [settle] on the response [r]: the same, [r] counting as the response
    before the first of [d], and no [Exception] leaves it. *)
Definition settle_post (r : Response) (d : list Event) (o : outcome Response) : Prop :=
  match o with
  | Ret r' =>
      r' = default r (last (responses d)) /\
      (requests_tools r' = true -> Print no_tool_call ∈ d)
  | Raise e => is_Exception e = false
  | Diverge => True
  end /\
  (requests_tools r = false -> o = Ret r /\ d = diagnostic r) /\
  (forall r0, r0 ∈ responses d -> requests_tools r0 = false ->
     o = Ret r0 /\
     exists d0 req, d = d0 ++ Completion req (Returns r0) :: diagnostic r0).


(** [execute]: as for [_run_tools], with the text of the response for the
    response; an [Exception] it raises is the one of its first provider
    call, made on the state [s] it started from. *)
Definition execute_post (s : State) (d : list Event) (o : outcome string) : Prop :=
  match o with
  | Ret text =>
      exists r,
        last (responses d) = Some r /\ text = content r /\
        (requests_tools r = true -> Print no_tool_call ∈ d)
  | Raise e =>
      is_Exception e = true -> completions d = [(request_of (self s), Raises e)]
  | Diverge => True
  end /\
  (forall r0, r0 ∈ responses d -> requests_tools r0 = false ->
     o = Ret (content r0) /\
     exists d0 req, d = d0 ++ Completion req (Returns r0) :: diagnostic r0).

(** The state with one more element in [self.messages]. *)
Definition appended (m : Message) (s : State) : State :=
  {| self := set_messages (messages (self s) ++ [m]) (self s);
     world := world s; trace := trace s |}.

(** The state [invoke] hands to [execute]: the agent's name printed, the
    user turn appended. *)
Definition with_user_turn (message : string) (s : State) : State :=
  appended (Turn user message)
    (log (Print (Fore_GREEN +:+ "Calling agent: " +:+ name (self s) +:+ nl)) s).


(** The state once the provider, called from [s], has answered [r] leaving
    the world [w], and the message has been appended. *)
Definition received (r : Response) (w : World) (s : State) : State :=
  appended (FromProvider r)
    {| self := self s; world := w;
       trace := trace s ++
         [Print (Fore_GREEN +:+ "LLM Call" +:+ nl);
          Completion (request_of (self s)) (Returns r)] |}.

End Client.

(** * Stand-ins for the collaborators, to run the class on *)

Module Stub.

(** The double quote, and the JSON object with the members [a] and [b]:
    an opening brace, the key [a] in double quotes, a colon, [x], a comma,
    the key [b] in double quotes, a colon, [y], a closing brace. *)
Definition dq : string := String (Ascii.ascii_of_nat 34) "".
Definition object_a_b (x y : string) : string :=
  "{" +:+ dq +:+ "a" +:+ dq +:+ ": " +:+ x +:+ ", " +:+
         dq +:+ "b" +:+ dq +:+ ": " +:+ y +:+ "}".

(** The argument documents of the scenarios that are JSON, each an object. *)
Definition documents : list string :=
  ["{}"; object_a_b "1" "2"; object_a_b "1" "0"].

(** Python values are kept as their JSON text.  The decoder knows the
    documents above; every other text the scenarios hand it is not JSON
    (unquoted keys) and does not decode. *)
#[export] Instance data : PyData :=
  {| PyObject := string;
     json_loads := fun doc => if decide (doc ∈ documents) then Some doc else None;
     py_str := fun v => v |}.

(** A provider that plays a script: each call gives the next entry back, and
    raises once the script is over. *)
#[export] Instance scripted : Externals :=
  {| World := list (returned Response);
     completion := fun _ script =>
       match script with
       | [] => ([], Raises (OtherException "APIConnectionError"))
       | r :: script' => (script', r)
       end |}.

Definition says (text : string) : returned Response :=
  Returns {| content := text; tool_calls := TCNone |}.

Definition asks (text : string) (calls : list ToolCall) : returned Response :=
  Returns {| content := text; tool_calls := TCList calls |}.

Definition call (id fname args : string) : ToolCall :=
  {| tc_id := id; tc_function := {| fn_name := fname; fn_arguments := args |} |}.

(** A tool that answers with a fixed string, and one that fails. *)
Definition answers (text : string) : Tool := fun _ w => (w, Returns text).
Definition fails (e : exn) : Tool := fun _ w => (w, Raises e).

Definition start (a : Agent) (script : list (returned Response)) : State :=
  {| self := a; world := script; trace := [] |}.

Definition plain : Agent := __init__ "bot" "gpt-4o" [] ∅ "".
Definition adder : Agent :=
  __init__ "calc" "gpt-4o" ["{add}"] {[ "add" := answers "3" ]} "Be brief.".


(** Scenarios. *)

Definition divider : Agent :=
  __init__ "calc" "gpt-4o" ["{div}"]
    {[ "div" := fails (OtherException "ZeroDivisionError") ]} "".

Definition add_1_2 (id : string) : ToolCall := call id "add" (object_a_b "1" "2").
Definition div_1_0 (id : string) : ToolCall := call id "div" (object_a_b "1" "0").

(** No tool is registered and the provider asks for one. *)
Definition asks_sub : Response :=
  {| content := "thinking"; tool_calls := TCList [call "c1" "sub" (object_a_b "1" "2")] |}.
Definition unknown_tool : State := start plain [Returns asks_sub].

(** The registered tool raises. *)
Definition asks_div : Response :=
  {| content := "one moment"; tool_calls := TCList [div_1_0 "c1"] |}.
Definition failing_tool : State := start divider [Returns asks_div; says "unused"].

(** Two requests in the first round, none in the second. *)
Definition asks_two : Response :=
  {| content := ""; tool_calls := TCList [add_1_2 "c1"; add_1_2 "c2"] |}.
Definition done : Response := {| content := "done"; tool_calls := TCNone |}.
Definition two_requests : State := start adder [Returns asks_two; Returns done].

(** A response without the [tool_calls] attribute. *)
Definition bare : Response := {| content := "hello"; tool_calls := TCMissing |}.
Definition unreadable : State := start plain [Returns bare].

(** Two calls in a row on one agent, the first with a tool round. *)
Definition two_calls : State :=
  start adder [asks "" [add_1_2 "c1"]; says "done"; says "ok"].

End Stub.

(** * Properties *)

Notation "x <- m ;; k" := (bind m (fun x => k))
  (at level 100, m at next level, right associativity).
Notation "m ;; k" := (bind m (fun _ => k))
  (at level 100, right associativity).

Section Properties.
Context {Data : PyData} {Ext : Externals}.
Implicit Types (s : State) (a : Agent) (d : list Event).

(** ** Inversion of the combinators *)

Lemma bind_inv {A B} (m : M A) (k : A -> M B) s s' o :
  bind m k s = (s', o) ->
  (exists s1 x, m s = (s1, Ret x) /\ k x s1 = (s', o)) \/
  (exists e, m s = (s', Raise e) /\ o = Raise e) \/
  (m s = (s', Diverge) /\ o = Diverge).
Proof.
  unfold bind. destruct (m s) as [s1 [x|e|]]; intros H.
  - left. eauto.
  - right. left. inversion H; subst. eauto.
  - right. right. inversion H; subst. eauto.
Qed.

Lemma bind_Ret {A B} (m : M A) (k : A -> M B) s s1 x :
  m s = (s1, Ret x) -> bind m k s = k x s1.
Proof. unfold bind. intros ->. reflexivity. Qed.

Lemma bind_Raise {A B} (m : M A) (k : A -> M B) s s1 e :
  m s = (s1, Raise e) -> bind m k s = (s1, Raise e).
Proof. unfold bind. intros ->. reflexivity. Qed.

Lemma try_except_inv {A} (body : M A) (h : exn -> M A) s s' o :
  try_except body h s = (s', o) ->
  (body s = (s', o) /\ forall e, o = Raise e -> is_Exception e = false) \/
  (exists s1 e, body s = (s1, Raise e) /\ is_Exception e = true /\ h e s1 = (s', o)).
Proof.
  unfold try_except. destruct (body s) as [s1 [x|e|]]; intros H.
  - left. inversion H; subst. split; [done | intros e [=]].
  - destruct (is_Exception e) eqn:He.
    + right. eauto.
    + left. inversion H; subst. split; [done | intros e' [= <-]; done].
  - left. inversion H; subst. split; [done | intros e [=]].
Qed.

(** ** Relations every method keeps

    A relation between the state before and the state after that is
    reflexive, transitive, and kept by the primitive effects is kept by
    every method of the class. *)

Section Frame.
Variable R : State -> State -> Prop.
Hypothesis R_refl : forall s, R s s.
Hypothesis R_trans : forall s1 s2 s3, R s1 s2 -> R s2 s3 -> R s1 s3.

Definition keeps {A} (m : M A) : Prop := forall s, R s (m s).1.

Lemma keeps_ret {A} (x : A) : keeps (ret x).
Proof. intros s. apply R_refl. Qed.

Lemma keeps_raise {A} e : keeps (@raise _ _ A e).
Proof. intros s. apply R_refl. Qed.

Lemma keeps_diverge {A} : keeps (@diverge _ _ A).
Proof. intros s. apply R_refl. Qed.

Lemma keeps_bind {A B} (m : M A) (k : A -> M B) :
  keeps m -> (forall x, keeps (k x)) -> keeps (bind m k).
Proof.
  intros Hm Hk s. specialize (Hm s). unfold bind.
  destruct (m s) as [s1 [x|e|]]; simpl in *; try done.
  eapply R_trans; [exact Hm | apply Hk].
Qed.

Lemma keeps_try_except {A} (body : M A) (h : exn -> M A) :
  keeps body -> (forall e, keeps (h e)) -> keeps (try_except body h).
Proof.
  intros Hb Hh s. specialize (Hb s). unfold try_except.
  destruct (body s) as [s1 [x|e|]]; simpl in *; try done.
  destruct (is_Exception e); simpl; [| done].
  eapply R_trans; [exact Hb | apply Hh].
Qed.

Lemma keeps_for_each {A} (l : list A) (body : A -> M unit) :
  (forall x, keeps (body x)) -> keeps (for_each l body).
Proof.
  intros Hb. induction l as [|x l IH]; simpl.
  - apply keeps_ret.
  - apply keeps_bind; [apply Hb | intros _; exact IH].
Qed.

Hypothesis R_messages : forall l, keeps (with_self (set_messages l)).
Hypothesis R_print : forall text, keeps (print text).
Hypothesis R_call_llm : keeps _call_llm.
Hypothesis R_call_tool : forall fname f args, keeps (call_tool fname f args).

Lemma keeps_get_self : keeps get_self.
Proof. intros s. apply R_refl. Qed.

Lemma keeps_messages_append m : keeps (messages_append m).
Proof. intros s. apply (R_messages (messages (self s) ++ [m]) s). Qed.

Lemma keeps_reset : keeps reset.
Proof.
  unfold reset. apply keeps_bind; [apply R_messages | intros _].
  apply keeps_bind; [apply keeps_get_self | intros a].
  case_decide; [apply keeps_ret | apply keeps_messages_append].
Qed.

Lemma keeps_get_tool_calls r : keeps (get_tool_calls r).
Proof.
  unfold get_tool_calls.
  destruct (tool_calls r); [apply keeps_raise | apply keeps_ret | apply keeps_ret].
Qed.

Lemma keeps_run_tool tc : keeps (run_tool tc).
Proof.
  unfold run_tool. apply keeps_bind; [apply keeps_get_self | intros a].
  apply keeps_bind; [destruct (_ !! _); [apply keeps_ret | apply keeps_raise] | intros f].
  apply keeps_bind; [destruct (json_loads _); [apply keeps_ret | apply keeps_raise] | intros v].
  apply keeps_bind; [apply R_print | intros _].
  apply keeps_bind; [apply R_print | intros _].
  apply keeps_bind; [apply R_call_tool | intros x].
  apply keeps_messages_append.
Qed.

Lemma keeps_handler (r : Response) : keeps (print no_tool_call ;; ret r).
Proof. apply keeps_bind; [apply R_print | intros _; apply keeps_ret]. Qed.

Lemma keeps_run_tools fuel : forall tcs, keeps (_run_tools fuel tcs).
Proof.
  induction fuel as [|fuel IH]; intros tcs; simpl.
  - apply keeps_diverge.
  - apply keeps_bind; [apply keeps_for_each, keeps_run_tool | intros _].
    apply keeps_bind; [apply R_call_llm | intros r].
    apply keeps_bind; [apply keeps_messages_append | intros _].
    apply keeps_try_except; [| intros _; apply keeps_handler].
    apply keeps_bind; [apply keeps_get_tool_calls | intros tc].
    destruct (truthy tc); [apply IH | apply keeps_ret].
Qed.

Lemma keeps_execute fuel : keeps (execute fuel).
Proof.
  unfold execute. apply keeps_bind; [apply R_call_llm | intros r].
  apply keeps_bind; [apply keeps_messages_append | intros _].
  apply keeps_bind; [| intros r'; apply keeps_ret].
  apply keeps_try_except; [| intros _; apply keeps_handler].
  apply keeps_bind; [apply keeps_get_tool_calls | intros tc].
  destruct (truthy tc); [apply keeps_run_tools | apply keeps_ret].
Qed.

Lemma keeps_invoke_before_reset fuel message : keeps (invoke_before_reset fuel message).
Proof.
  unfold invoke_before_reset. apply keeps_bind; [apply keeps_get_self | intros a].
  apply keeps_bind; [apply R_print | intros _].
  apply keeps_bind; [apply keeps_messages_append | intros _].
  apply keeps_bind; [apply keeps_execute | intros r].
  apply keeps_bind; [apply keeps_messages_append | intros _; apply keeps_ret].
Qed.

Lemma keeps_invoke fuel message : keeps (invoke fuel message).
Proof.
  unfold invoke. apply keeps_bind; [apply keeps_invoke_before_reset | intros r].
  apply keeps_bind; [apply keeps_reset | intros _; apply keeps_ret].
Qed.

Lemma keeps_run_call fuel c : keeps (run_call fuel c).
Proof.
  destruct c; simpl.
  - apply keeps_bind; [apply keeps_invoke | intros _; apply keeps_ret].
  - apply keeps_bind; [apply keeps_execute | intros _; apply keeps_ret].
  - apply keeps_reset.
Qed.

Lemma keeps_run_calls fuel cs : forall s, R s (run_calls fuel cs s).
Proof.
  induction cs as [|c cs IH]; intros s; simpl.
  - apply R_refl.
  - eapply R_trans; [apply keeps_run_call | apply IH].
Qed.

End Frame.

(** ** The configuration is framed *)

Lemma only_messages_same_self s s' : self s' = self s -> only_messages s s'.
Proof. unfold only_messages. intros ->. destruct (self s); reflexivity. Qed.

Lemma only_messages_refl s : only_messages s s.
Proof. apply only_messages_same_self. reflexivity. Qed.

Lemma only_messages_trans s1 s2 s3 :
  only_messages s1 s2 -> only_messages s2 s3 -> only_messages s1 s3.
Proof. unfold only_messages. intros H12 H23. rewrite H23, H12. reflexivity. Qed.

Lemma only_messages_call_llm : keeps only_messages _call_llm.
Proof.
  intros s. unfold _call_llm, bind, print, get_self, call_completion. simpl.
  destruct (completion _ _) as [w [r|e]]; apply only_messages_same_self; reflexivity.
Qed.

Lemma only_messages_call_tool fname f args : keeps only_messages (call_tool fname f args).
Proof.
  intros s. unfold call_tool.
  destruct (f args (world s)) as [w [r|e]]; apply only_messages_same_self; reflexivity.
Qed.

Lemma only_messages_with_self l : keeps only_messages (with_self (set_messages l)).
Proof. intros s. reflexivity. Qed.

Lemma only_messages_print text : keeps only_messages (print text).
Proof. intros s. apply only_messages_same_self. reflexivity. Qed.

Lemma only_messages_fields s s' :
  only_messages s s' ->
  name (self s') = name (self s) /\
  model (self s') = model (self s) /\
  system_prompt (self s') = system_prompt (self s) /\
  tools (self s') = tools (self s) /\
  available_tools (self s') = available_tools (self s).
Proof. unfold only_messages. intros ->. simpl. done. Qed.

Lemma invoke_only_messages fuel message s :
  only_messages s (invoke fuel message s).1.
Proof.
  apply (keeps_invoke only_messages only_messages_refl only_messages_trans
           only_messages_with_self only_messages_print only_messages_call_llm
           only_messages_call_tool).
Qed.

(** ** reset *)

Lemma reset_eq s :
  reset s =
  ({| self := set_messages (seed (system_prompt (self s))) (self s);
      world := world s; trace := trace s |}, Ret tt).
Proof.
  unfold reset, seed, bind, messages_clear, messages_append, with_self, get_self.
  simpl. case_decide; reflexivity.
Qed.

(** C7: [reset] sets the session state to the single system turn when a
    system prompt is configured and to the empty list otherwise, touching
    nothing else, and a second [reset] right after changes nothing more. *)
Theorem reset_reseeds_and_is_idempotent s :
  reset s =
    ({| self :=
          set_messages
            (if decide (system_prompt (self s) = "") then []
             else [Turn system (system_prompt (self s))]) (self s);
        world := world s; trace := trace s |}, Ret tt) /\
  (reset ;; reset) s = reset s.
Proof.
  split; [apply reset_eq |].
  rewrite (bind_Ret _ _ _ _ _ (reset_eq s)). rewrite !reset_eq. reflexivity.
Qed.

(** C8: over any sequence of [invoke], [execute] and [reset] calls, whatever
    each of them does, the agent afterwards differs from the agent before in
    its [messages] at most: [name], [model], [system_prompt], [tools] and
    [available_tools] are the same. *)
Theorem configuration_is_never_mutated fuel (cs : list Call) s :
  self (run_calls fuel cs s) =
    set_messages (messages (self (run_calls fuel cs s))) (self s) /\
  name (self (run_calls fuel cs s)) = name (self s) /\
  model (self (run_calls fuel cs s)) = model (self s) /\
  system_prompt (self (run_calls fuel cs s)) = system_prompt (self s) /\
  tools (self (run_calls fuel cs s)) = tools (self s) /\
  available_tools (self (run_calls fuel cs s)) = available_tools (self s).
Proof.
  assert (Hk : only_messages s (run_calls fuel cs s)).
  { apply (keeps_run_calls only_messages only_messages_refl only_messages_trans
             only_messages_with_self only_messages_print only_messages_call_llm
             only_messages_call_tool). }
  split; [exact Hk | apply only_messages_fields, Hk].
Qed.

(** ** invoke ends in the seed *)

Lemma invoke_Ret_seed fuel message s s' text :
  invoke fuel message s = (s', Ret text) ->
  messages (self s') = seed (system_prompt (self s)).
Proof.
  unfold invoke. intros H.
  apply bind_inv in H as [(s1 & r & H1 & H) | [(e & _ & [=]) | (_ & [=])]].
  pose proof (keeps_invoke_before_reset only_messages only_messages_refl
                only_messages_trans only_messages_with_self only_messages_print
                only_messages_call_llm only_messages_call_tool fuel message s) as Hk.
  rewrite H1 in Hk. simpl in Hk. apply only_messages_fields in Hk as (_ & _ & Hp & _).
  unfold bind in H. rewrite reset_eq in H. inversion H; subst. simpl.
  rewrite Hp. reflexivity.
Qed.

Lemma invoke_each_lookup fuel msgs : forall s k s' o,
  invoke_each fuel msgs s !! k = Some (s', o) ->
  exists s0 message,
    invoke fuel message s0 = (s', o) /\
    system_prompt (self s0) = system_prompt (self s).
Proof.
  induction msgs as [|m msgs IH]; intros s k s' o; simpl; [done |].
  destruct k as [|k]; simpl.
  - intros [= H]. exists s, m. split; [| done].
    destruct (invoke fuel m s); simpl in *. congruence.
  - intros H. apply IH in H as (s0 & message & H & Hp).
    exists s0, message. split; [done |]. rewrite Hp.
    apply (only_messages_fields _ _ (invoke_only_messages fuel m s)).
Qed.

(** C3: in any sequence of [invoke] calls on one agent, after every call
    that returns the session state is exactly the seed: the system turn
    alone when a system prompt is configured, nothing otherwise; however
    many tool rounds the call went through, none of its turns is left for
    the next call. *)
Theorem session_is_the_seed_after_each_invoke
    fuel (msgs : list string) s (k : nat) s' text :
  invoke_each fuel msgs s !! k = Some (s', Ret text) ->
  messages (self s') =
    if decide (system_prompt (self s) = "") then []
    else [Turn system (system_prompt (self s))].
Proof.
  intros H. apply invoke_each_lookup in H as (s0 & message & H & Hp).
  apply invoke_Ret_seed in H. rewrite H, Hp. reflexivity.
Qed.


(** ** The trace only grows *)

Lemma trace_grows_refl s : trace_grows s s.
Proof. exists []. by rewrite app_nil_r. Qed.

Lemma trace_grows_trans s1 s2 s3 :
  trace_grows s1 s2 -> trace_grows s2 s3 -> trace_grows s1 s3.
Proof. intros [d1 H1] [d2 H2]. exists (d1 ++ d2). by rewrite H2, H1, app_assoc. Qed.

Lemma since_app s s' d : trace s' = trace s ++ d -> since s s' = d.
Proof. unfold since. intros ->. by rewrite drop_app_length. Qed.

Lemma responses_app d1 d2 : responses (d1 ++ d2) = responses d1 ++ responses d2.
Proof. apply omap_app. Qed.

Lemma completions_app d1 d2 : completions (d1 ++ d2) = completions d1 ++ completions d2.
Proof. apply omap_app. Qed.

Lemma tool_results_app d1 d2 : tool_results (d1 ++ d2) = tool_results d1 ++ tool_results d2.
Proof. apply omap_app. Qed.

Lemma responses_no_completions d : completions d = [] -> responses d = [].
Proof.
  induction d as [|ev d IH]; [done |].
  destruct ev as [t|req res|f x res]; simpl; try exact IH. done.
Qed.

Lemma last_cons_default {A} (x : A) (l : list A) :
  last (x :: l) = Some (default x (last l)).
Proof.
  revert x. induction l as [|y l IH]; intros x; [done |].
  change (last (x :: y :: l)) with (last (y :: l)). by rewrite (IH y).
Qed.

(** ** One provider call *)

Lemma tools_keyword a :
  match tools a with [] => None | _ :: _ => Some (tools a) end =
  if decide (tools a = []) then None else Some (tools a).
Proof. destruct (tools a); case_decide; congruence. Qed.

Lemma call_llm_eq s :
  _call_llm s =
    ({| self := self s;
        world := (completion (request_of (self s)) (world s)).1;
        trace := trace s ++
          [Print (Fore_GREEN +:+ "LLM Call" +:+ nl);
           Completion (request_of (self s))
             (completion (request_of (self s)) (world s)).2] |},
     of_returned (completion (request_of (self s)) (world s)).2).
Proof.
  unfold _call_llm, bind, print, get_self, call_completion, log, request_of.
  simpl. rewrite tools_keyword. unfold temperature.
  destruct (completion _ _) as [w [r|e]]; simpl; by rewrite <- app_assoc.
Qed.

(** ** One tool request, and the loop over the requests *)

Lemma run_tool_spec tc s s' o :
  run_tool tc s = (s', o) ->
  exists d,
    trace s' = trace s ++ d /\ completions d = [] /\
    match o with
    | Ret _ =>
        exists (f : Tool) args text w,
          available_tools (self s) !! fn_name (tc_function tc) = Some f /\
          json_loads (fn_arguments (tc_function tc)) = Some args /\
          f args (world s) = (w, Returns text) /\
          tool_results d = [text] /\
          self s' = set_messages (messages (self s) ++ [tool_turn tc text]) (self s)
    | Raise e => self s' = self s
    | Diverge => False
    end.
Proof.
  unfold run_tool, bind, get_self, print, call_tool, messages_append, with_self, log.
  simpl.
  destruct (available_tools (self s) !! fn_name (tc_function tc)) as [f|] eqn:Hf; simpl.
  2:{ intros [= <- <-]. exists []. by rewrite app_nil_r. }
  destruct (json_loads (fn_arguments (tc_function tc))) as [args|] eqn:Ha; simpl.
  2:{ intros [= <- <-]. exists []. by rewrite app_nil_r. }
  destruct (f args (world s)) as [w [text|e]] eqn:Hr; simpl; intros [= <- <-]; simpl;
    eexists; (split; [by rewrite <- !app_assoc |]); (split; [done |]).
  - exists f, args, text, w. done.
  - done.
Qed.

Lemma for_each_run_tool_spec tcs : forall s s' o,
  for_each tcs run_tool s = (s', o) ->
  exists d,
    trace s' = trace s ++ d /\ completions d = [] /\
    match o with
    | Ret _ =>
        length (tool_results d) = length tcs /\
        self s' =
          set_messages (messages (self s) ++ zip_with tool_turn tcs (tool_results d))
            (self s)
    | Raise e => True
    | Diverge => False
    end.
Proof.
  induction tcs as [|tc tcs IH]; intros s s' o; simpl.
  - intros [= <- <-]. exists []. rewrite !app_nil_r. repeat split.
    unfold set_messages. simpl. rewrite ?app_nil_r. by destruct (self s).
  - intros H. apply bind_inv in H as [(s1 & [] & H1 & H) | [(e & H1 & ->) | (H1 & ->)]].
    + apply run_tool_spec in H1 as (d1 & Ht1 & Hc1 & f & args & text & w & _ & _ & _ & Hr1 & Hs1).
      apply IH in H as (d2 & Ht2 & Hc2 & Ho).
      exists (d1 ++ d2). split; [by rewrite Ht2, Ht1, app_assoc |].
      split; [by rewrite completions_app, Hc1, Hc2 |].
      destruct o as [[]|e|]; [| done | done].
      destruct Ho as (Hlen & Hs'). rewrite tool_results_app, Hr1. simpl.
      split; [by rewrite Hlen |].
      rewrite Hs', Hs1. unfold set_messages. simpl. by rewrite <- app_assoc.
    + apply run_tool_spec in H1 as (d1 & Ht1 & Hc1 & _). by exists d1.
    + apply run_tool_spec in H1 as (d1 & _ & _ & []).
Qed.


(** ** The loop *)

Lemma requests_tools_truthy r :
  requests_tools r = true ->
  exists tc l, tool_calls r = TCList (tc :: l).
Proof. unfold requests_tools. destruct (tool_calls r) as [| |[|tc l]]; try done. eauto. Qed.

Lemma settle_spec_from fuel :
  (forall tcs s s' o, _run_tools fuel tcs s = (s', o) ->
     exists d, trace s' = trace s ++ d /\ run_tools_post d o) ->
  forall r s s' o, settle fuel r s = (s', o) ->
     exists d, trace s' = trace s ++ d /\ settle_post r d o.
Proof.
  intros IH r s s' o H. unfold settle in H.
  apply try_except_inv in H as [[Hb Hne] | (s1 & e & Hb & He & Hh)].
  - unfold get_tool_calls, bind in Hb.
    destruct (tool_calls r) as [| |[|tc l]] eqn:Htc; simpl in Hb.
    + inversion Hb; subst. by specialize (Hne _ eq_refl).
    + inversion Hb; subst. exists []. rewrite app_nil_r. split; [done |].
      unfold settle_post, requests_tools, diagnostic. rewrite Htc.
      split; [split; done | split; [done |]].
      intros r0 Hin. by apply elem_of_nil in Hin.
    + inversion Hb; subst. exists []. rewrite app_nil_r. split; [done |].
      unfold settle_post, requests_tools, diagnostic. rewrite Htc.
      split; [split; done | split; [done |]].
      intros r0 Hin. by apply elem_of_nil in Hin.
    + apply IH in Hb as (d & Ht & Ho & Hm). exists d. split; [done |].
      split; [| split; [| exact Hm]].
      * destruct o as [r'|e|]; [| by apply Hne | done].
        destruct Ho as [Hl Hd]. rewrite Hl. done.
      * unfold requests_tools. rewrite Htc. done.
  - unfold bind, print, ret in Hh. simpl in Hh. inversion Hh; subst. clear Hh.
    unfold get_tool_calls, bind in Hb.
    destruct (tool_calls r) as [| |[|tc l]] eqn:Htc; simpl in Hb.
    + inversion Hb; subst. exists [Print no_tool_call]. split; [done |].
      unfold settle_post, diagnostic. rewrite Htc.
      split; [split; [done |] | split; [done |]].
      * intros _. apply list_elem_of_singleton. done.
      * intros r0 Hin. by apply elem_of_nil in Hin.
    + inversion Hb.
    + inversion Hb.
    + apply IH in Hb as (d & Ht & Ho & Hm). simpl in Ho. specialize (Ho He).
      exists (d ++ [Print no_tool_call]).
      split; [simpl; by rewrite Ht, app_assoc |].
      unfold settle_post. rewrite responses_app, Ho. simpl.
      split; [split; [done |] | split].
      * intros _. apply elem_of_app. right. apply list_elem_of_singleton. done.
      * unfold requests_tools. rewrite Htc. done.
      * intros r0 Hin. by apply elem_of_nil in Hin.
Qed.

Lemma run_tools_step fuel tcs :
  _run_tools (S fuel) tcs =
  (for_each tcs run_tool ;;
   response <- _call_llm ;;
   messages_append (FromProvider response) ;;
   settle fuel response).
Proof. reflexivity. Qed.

Lemma run_tools_spec fuel : forall tcs s s' o,
  _run_tools fuel tcs s = (s', o) ->
  exists d, trace s' = trace s ++ d /\ run_tools_post d o.
Proof.
  induction fuel as [|fuel IH]; intros tcs s s' o H.
  - inversion H; subst. exists []. rewrite app_nil_r. split; [done |].
    split; [done |]. intros r0 Hin. by apply elem_of_nil in Hin.
  - rewrite run_tools_step in H.
    apply bind_inv in H as [(s1 & [] & H1 & H) | [(e & H1 & ->) | (H1 & ->)]].
    2:{ apply for_each_run_tool_spec in H1 as (d1 & Ht1 & Hc1 & _).
        apply responses_no_completions in Hc1.
        exists d1. split; [done |]. unfold run_tools_post. rewrite Hc1. split; [done |].
        intros r0 Hin. by apply elem_of_nil in Hin. }
    2:{ by apply for_each_run_tool_spec in H1 as (d1 & _ & _ & []). }
    apply for_each_run_tool_spec in H1 as (d1 & Ht1 & Hc1 & _).
    apply responses_no_completions in Hc1.
    unfold bind in H. rewrite call_llm_eq in H.
    destruct (completion (request_of (self s1)) (world s1)) as [w [r|e]]; simpl in H.
    + apply (settle_spec_from fuel IH) in H as (d3 & Ht3 & Ho & Hr & Hm). simpl in Ht3.
      eexists (d1 ++ [_; _] ++ d3). split; [by rewrite Ht3, Ht1, <- !app_assoc |].
      unfold run_tools_post. rewrite !responses_app, Hc1. simpl.
      split.
      * destruct o as [r'|e|]; [| intros He; congruence | done].
        destruct Ho as [-> Hd]. split; [apply last_cons_default |].
        intros Hq. apply elem_of_app. right. do 2 apply list_elem_of_further. by apply Hd.
      * intros r0 Hin Hr0. apply elem_of_cons in Hin as [-> | Hin].
        -- destruct (Hr Hr0) as [-> ->]. split; [done |].
           eexists (d1 ++ [_]), _. by rewrite <- app_assoc.
        -- destruct (Hm r0 Hin Hr0) as (-> & d0 & req & ->). split; [done |].
           eexists (d1 ++ [_; _] ++ d0), req. by rewrite <- !app_assoc.
    + inversion H; subst. eexists (d1 ++ [_; _]).
      split; [by rewrite Ht1, <- !app_assoc |].
      unfold run_tools_post. rewrite !responses_app, Hc1. simpl. split; [done |].
      intros r0 Hin. by apply elem_of_nil in Hin.
Qed.

Lemma settle_spec fuel r s s' o :
  settle fuel r s = (s', o) ->
  exists d, trace s' = trace s ++ d /\ settle_post r d o.
Proof. apply settle_spec_from, run_tools_spec. Qed.


(** ** execute and invoke *)

Lemma execute_step fuel :
  execute fuel =
  (response <- _call_llm ;;
   messages_append (FromProvider response) ;;
   response' <- settle fuel response ;;
   ret (content response')).
Proof. reflexivity. Qed.

Lemma execute_spec fuel s s' o :
  execute fuel s = (s', o) ->
  exists d, trace s' = trace s ++ d /\ execute_post s d o.
Proof.
  rewrite execute_step. unfold bind at 1. rewrite call_llm_eq.
  destruct (completion (request_of (self s)) (world s)) as [w [r|e]]; simpl.
  - intros H. unfold bind at 1 in H. simpl in H.
    apply bind_inv in H as [(s1 & r' & H1 & H) | [(e & H1 & ->) | (H1 & ->)]];
      apply settle_spec in H1 as (d3 & Ht3 & Ho & Hr & Hm); simpl in Ht3.
    + inversion H; subst. clear H. destruct Ho as [-> Hd].
      eexists ([_; _] ++ d3). split; [by rewrite Ht3, <- !app_assoc |].
      split.
      * eexists. split; [apply last_cons_default |]. split; [done |].
        intros Hq. do 2 apply list_elem_of_further. by apply Hd.
      * intros r0 Hin Hr0. apply elem_of_cons in Hin as [-> | Hin].
        -- destruct (Hr Hr0) as [[= Heq] ->]. rewrite Heq. split; [done |].
           by eexists [_], _.
        -- destruct (Hm r0 Hin Hr0) as ([= Heq] & d0 & req & ->). rewrite Heq.
           split; [done |]. by eexists ([_; _] ++ d0), req.
    + eexists ([_; _] ++ d3). split; [by rewrite Ht3, <- !app_assoc |].
      split; [simpl in Ho; intros He; congruence |].
      intros r0 Hin Hr0. apply elem_of_cons in Hin as [-> | Hin].
      * by destruct (Hr Hr0) as [[=] _].
      * by destruct (Hm r0 Hin Hr0) as [[=] _].
    + eexists ([_; _] ++ d3). split; [by rewrite Ht3, <- !app_assoc |].
      split; [done |].
      intros r0 Hin Hr0. apply elem_of_cons in Hin as [-> | Hin].
      * by destruct (Hr Hr0) as [[=] _].
      * by destruct (Hm r0 Hin Hr0) as [[=] _].
  - intros [= <- <-]. eexists [_; _]. split; [done |]. split; [done |].
    intros r0 Hin. by apply elem_of_nil in Hin.
Qed.

Lemma invoke_before_reset_step fuel message s :
  invoke_before_reset fuel message s =
  (result <- execute fuel ;;
   messages_append (Turn assistant result) ;;
   ret result) (with_user_turn message s).
Proof. reflexivity. Qed.

Lemma invoke_before_reset_spec fuel message s s' o :
  invoke_before_reset fuel message s = (s', o) ->
  exists d,
    trace s' =
      trace s ++ Print (Fore_GREEN +:+ "Calling agent: " +:+ name (self s) +:+ nl) :: d /\
    execute_post (with_user_turn message s) d o.
Proof.
  rewrite invoke_before_reset_step. intros H.
  apply bind_inv in H as [(s1 & text & H1 & H) | [(e & H1 & ->) | (H1 & ->)]];
    apply execute_spec in H1 as (d & Ht & Ho); simpl in Ht;
    exists d; rewrite <- app_assoc in Ht.
  - inversion H; subst. done.
  - done.
  - done.
Qed.

Lemma invoke_spec fuel message s s' o :
  invoke fuel message s = (s', o) ->
  exists d,
    trace s' =
      trace s ++ Print (Fore_GREEN +:+ "Calling agent: " +:+ name (self s) +:+ nl) :: d /\
    execute_post (with_user_turn message s) d o.
Proof.
  unfold invoke. intros H.
  apply bind_inv in H as [(s1 & text & H1 & H) | [(e & H1 & ->) | (H1 & ->)]];
    apply invoke_before_reset_spec in H1 as (d & Ht & Ho); exists d.
  - unfold bind in H. rewrite reset_eq in H. inversion H; subst. done.
  - done.
  - done.
Qed.


Lemma grows_since s s' d : trace s' = trace s ++ d -> d = since s s'.
Proof. intros H. symmetry. by apply since_app. Qed.

Lemma of_returned_Ret {A} (res : returned A) x : of_returned res = Ret x -> res = Returns x.
Proof. destruct res; simpl; congruence. Qed.

Lemma state_eta s : {| self := self s; world := world s; trace := trace s |} = s.
Proof. by destruct s. Qed.

(** A response that asks for no tool is settled on at once; reading
    [tool_calls] having raised only adds the diagnostic. *)
Lemma settle_quiet fuel r s :
  requests_tools r = false ->
  settle fuel r s =
    ({| self := self s; world := world s; trace := trace s ++ diagnostic r |}, Ret r).
Proof.
  unfold requests_tools, settle, diagnostic, try_except, bind, get_tool_calls.
  destruct (tool_calls r) as [| |[|tc l]]; simpl; intros Hq; try done.
  - by rewrite app_nil_r, state_eta.
  - by rewrite app_nil_r, state_eta.
Qed.

(** C1, as amended: the text [invoke] returns is the text content of the
    last response the provider gave during the call; that response asks
    for no tool unless the handler ran (its diagnostic is on the console),
    which is what happens when an [Exception] is raised while its requests
    are dispatched or by the provider call that follows.  And when the
    first response asks for no tool, [execute] returns its text content
    unchanged, having made that one provider call and appended that one
    message. *)
Theorem invoke_returns_the_last_response :
  (forall fuel message s s' text,
     invoke fuel message s = (s', Ret text) ->
     exists r,
       last (responses (since s s')) = Some r /\
       text = content r /\
       (requests_tools r = true -> Print no_tool_call ∈ since s s')) /\
  (forall fuel s s1 r,
     _call_llm s = (s1, Ret r) ->
     requests_tools r = false ->
     exists s',
       execute fuel s = (s', Ret (content r)) /\
       responses (since s s') = [r] /\
       messages (self s') = messages (self s) ++ [FromProvider r]).
Proof.
  split.
  - intros fuel message s s' text H.
    apply invoke_spec in H as (d & Ht & (r & Hl & -> & Hd) & _).
    apply grows_since in Ht. rewrite <- Ht. exists r.
    split; [exact Hl |]. split; [done |].
    intros Hq. apply list_elem_of_further. by apply Hd.
  - intros fuel s s1 r H Hq. rewrite call_llm_eq in H.
    injection H as <- Hr. apply of_returned_Ret in Hr.
    eexists. split.
    + rewrite execute_step. unfold bind at 1. rewrite call_llm_eq, Hr. simpl.
      unfold bind at 1. simpl. unfold bind. rewrite (settle_quiet _ _ _ Hq).
      simpl. reflexivity.
    + simpl. split; [| done].
      rewrite <- app_assoc. erewrite since_app; [| reflexivity].
      simpl. unfold diagnostic. by destruct (tool_calls r).
Qed.

(** C5: a response whose [tool_calls] cannot be read is treated as one that
    holds [None] or an empty list: whenever the provider gives such a
    response during [execute], the call returns that response's text
    content and raises nothing, and that provider call is the last thing
    the loop did, but for the diagnostic line printed in the unreadable
    case. *)
Theorem unreadable_tool_calls_count_as_none fuel s s' o r :
  execute fuel s = (s', o) ->
  r ∈ responses (since s s') ->
  tool_calls r = TCMissing \/ tool_calls r = TCNone \/ tool_calls r = TCList [] ->
  o = Ret (content r) /\
  exists d0 req,
    since s s' =
      d0 ++ Completion req (Returns r) ::
        match tool_calls r with
        | TCMissing => [Print no_tool_call]
        | _ => []
        end.
Proof.
  intros H Hin Hr. apply execute_spec in H as (d & Ht & _ & Hm).
  apply grows_since in Ht. subst d. apply Hm; [done |].
  unfold requests_tools. by destruct Hr as [-> | [-> | ->]].
Qed.


(** ** Errors during tool dispatch *)

Lemma bind_assoc {A B C} (m : M A) (k : A -> M B) (h : B -> M C) s :
  bind (bind m k) h s = bind m (fun x => bind (k x) h) s.
Proof. unfold bind. by destruct (m s) as [s1 [x|e|]]. Qed.

Lemma for_each_never_diverges tcs s s' : for_each tcs run_tool s <> (s', Diverge).
Proof.
  intros H. by apply for_each_run_tool_spec in H as (d & _ & _ & []).
Qed.

Lemma invoke_step fuel message s :
  invoke fuel message s =
    (result <- execute fuel ;;
     messages_append (Turn assistant result) ;;
     reset ;;
     ret result) (with_user_turn message s).
Proof.
  unfold invoke. unfold bind at 1. rewrite invoke_before_reset_step.
  unfold bind. destruct (execute fuel _) as [s1 [text|e|]]; reflexivity.
Qed.

(** C2, as amended: an error derived from [Exception] that is raised while
    the tool requests of a response are dispatched does not leave
    [invoke].  (1) The only [Exception] [invoke] can raise is the one its
    first provider call raised, before any response and any dispatch.
    (2) When dispatching the requests of the first response raises [e]:
    if [e] derives from [Exception] the handler prints its diagnostic and
    [invoke] completes, returning that response's text content and leaving
    the session reset; otherwise [e] leaves [invoke] from the state the
    dispatch left, without reset.  (3) A name absent from the registry makes
    the dispatch raise [KeyError], and (4) what a callable raises is what
    the dispatch raises. *)
Theorem dispatch_exceptions_are_caught :
  (forall fuel message s s' e,
     invoke fuel message s = (s', Raise e) ->
     is_Exception e = true ->
     completions (since s s') =
       [(request_of (self (with_user_turn message s)), Raises e)]) /\
  (forall fuel message s s1 r tc tcs s2 e,
     _call_llm (with_user_turn message s) = (s1, Ret r) ->
     tool_calls r = TCList (tc :: tcs) ->
     for_each (tc :: tcs) run_tool (appended (FromProvider r) s1) = (s2, Raise e) ->
     invoke (S fuel) message s =
       if is_Exception e
       then ((reset (appended (Turn assistant (content r))
                       (log (Print no_tool_call) s2))).1,
             Ret (content r))
       else (s2, Raise e)) /\
  (forall tc s,
     available_tools (self s) !! fn_name (tc_function tc) = None ->
     run_tool tc s = (s, Raise (KeyError (fn_name (tc_function tc))))) /\
  (forall tc s (f : Tool) args w e,
     available_tools (self s) !! fn_name (tc_function tc) = Some f ->
     json_loads (fn_arguments (tc_function tc)) = Some args ->
     f args (world s) = (w, Raises e) ->
     exists s', run_tool tc s = (s', Raise e)).
Proof.
  split; [| split; [| split]].
  - intros fuel message s s' e H He.
    apply invoke_spec in H as (d & Ht & Ho & _). simpl in Ho. specialize (Ho He).
    apply grows_since in Ht. rewrite <- Ht. exact Ho.
  - intros fuel message s s1 r tc tcs s2 e H1 Htc H3.
    rewrite invoke_step, execute_step, !bind_assoc. rewrite (bind_Ret _ _ _ _ _ H1).
    rewrite bind_assoc. unfold bind at 1. simpl.
    change {| self := set_messages (messages (self s1) ++ [FromProvider r]) (self s1);
              world := world s1; trace := trace s1 |}
      with (appended (FromProvider r) s1).
    assert (Hs : settle (S fuel) r (appended (FromProvider r) s1) =
                 if is_Exception e
                 then (log (Print no_tool_call) s2, Ret r)
                 else (s2, Raise e)).
    { assert (Hrt : _run_tools (S fuel) (tc :: tcs) (appended (FromProvider r) s1) =
                    (s2, Raise e)).
      { rewrite run_tools_step. apply bind_Raise, H3. }
      unfold settle, try_except, bind at 1, get_tool_calls. rewrite Htc.
      cbn [truthy calls_of ret]. rewrite Hrt. by destruct (is_Exception e). }
    rewrite bind_assoc. unfold bind at 1. rewrite Hs.
    destruct (is_Exception e); [| done].
    unfold bind. simpl. rewrite !reset_eq. reflexivity.
  - intros tc s Hf. unfold run_tool, bind, get_self. simpl. by rewrite Hf.
  - intros tc s f args w e Hf Ha Hr. eexists.
    unfold run_tool, bind, get_self. simpl. rewrite Hf. simpl. rewrite Ha.
    unfold call_tool. simpl. rewrite Hr. reflexivity.
Qed.

(** ** The message of invoke *)

(** C9: [invoke] looks at its message nowhere.  Whatever the string, the
    empty one included, it appends the user turn with that very content,
    makes the first provider call on the session so extended, and goes on
    as [execute], the assistant turn and [reset] do from there: nothing is
    raised and no branch is taken on the message. *)
Theorem invoke_takes_any_message fuel message s :
  messages (self (with_user_turn message s)) =
    messages (self s) ++ [Turn user message] /\
  invoke fuel message s =
    (result <- execute fuel ;;
     messages_append (Turn assistant result) ;;
     reset ;;
     ret result) (with_user_turn message s) /\
  exists res d,
    since s (invoke fuel message s).1 =
      Print (Fore_GREEN +:+ "Calling agent: " +:+ name (self s) +:+ nl) ::
      Print (Fore_GREEN +:+ "LLM Call" +:+ nl) ::
      Completion (request_of (self (with_user_turn message s))) res :: d /\
    req_messages (request_of (self (with_user_turn message s))) =
      messages (self s) ++ [Turn user message].
Proof.
  split; [done |]. split.
  - apply invoke_step.
  - destruct (invoke fuel message s) as [s' o] eqn:H. simpl.
    assert (Hg : exists s1 o1 d1,
               execute fuel (with_user_turn message s) = (s1, o1) /\
               trace s' = trace s1 ++ d1).
    { rewrite invoke_step in H. unfold bind at 1 in H.
      destruct (execute fuel _) as [s1 [text|e|]] eqn:He.
      - exists s1, (Ret text), []. split; [done |].
        unfold bind in H. simpl in H. rewrite reset_eq in H.
        inversion H; subst. simpl. by rewrite app_nil_r.
      - exists s1, (Raise e), []. split; [done |]. inversion H; subst.
        by rewrite app_nil_r.
      - exists s1, Diverge, []. split; [done |]. inversion H; subst.
        by rewrite app_nil_r. }
    destruct Hg as (s1 & o1 & d1 & He & Ht1).
    rewrite execute_step in He. unfold bind at 1 in He. rewrite call_llm_eq in He.
    set (res := (completion (request_of (self (with_user_turn message s)))
                   (world (with_user_turn message s))).2) in *.
    assert (Hg : exists d2, trace s1 =
               (trace (with_user_turn message s) ++
                [Print (Fore_GREEN +:+ "LLM Call" +:+ nl);
                 Completion (request_of (self (with_user_turn message s))) res]) ++ d2).
    { destruct res as [r|e]; simpl in He.
      - unfold bind at 1 in He. simpl in He.
        apply bind_inv in He as [(s2 & r' & H1 & He) | [(e & H1 & ->) | (H1 & ->)]];
          apply settle_spec in H1 as (d3 & Ht3 & _); simpl in Ht3.
        + inversion He; subst. by exists d3.
        + by exists d3.
        + by exists d3.
      - inversion He; subst. exists []. by rewrite app_nil_r. }
    destruct Hg as (d2 & Ht2). exists res, (d2 ++ d1). split; [| done].
    apply since_app. rewrite Ht1, Ht2. simpl. by rewrite <- !app_assoc.
Qed.


(** ** Fuel

    Fuel only decides whether a run is cut short: a run that did not run
    out of fuel is the same with any larger amount. *)

Lemma settle_fuel_mono_from fuel fuel' :
  (forall tcs s s' o,
     _run_tools fuel tcs s = (s', o) -> o <> Diverge ->
     _run_tools fuel' tcs s = (s', o)) ->
  forall r s s' o,
    settle fuel r s = (s', o) -> o <> Diverge -> settle fuel' r s = (s', o).
Proof.
  intros IH r s s' o H Hnd.
  unfold settle, try_except, bind, get_tool_calls in *.
  destruct (tool_calls r) as [| |[|tc l]]; simpl in *; try done.
  destruct (_run_tools fuel (tc :: l) s) as [s1 o1] eqn:Hrt.
  assert (Ho1 : o1 <> Diverge) by (intros ->; inversion H; by subst).
  by rewrite (IH _ _ _ _ Hrt Ho1).
Qed.

Lemma run_tools_fuel_mono fuel : forall fuel' tcs s s' o,
  fuel <= fuel' ->
  _run_tools fuel tcs s = (s', o) -> o <> Diverge ->
  _run_tools fuel' tcs s = (s', o).
Proof.
  induction fuel as [|fuel IH]; intros fuel' tcs s s' o Hle H Hnd.
  - inversion H; by subst.
  - destruct fuel' as [|fuel']; [lia |].
    rewrite run_tools_step in *. unfold bind at 1. unfold bind at 1 in H.
    destruct (for_each tcs run_tool s) as [s1 [[]|e|]]; [| done | done].
    unfold bind at 1. unfold bind at 1 in H.
    destruct (_call_llm s1) as [s2 [r|e|]]; [| done | done].
    unfold bind at 1. unfold bind at 1 in H. simpl in *.
    apply (settle_fuel_mono_from fuel fuel'); [| done | done].
    intros. apply IH; [lia | done | done].
Qed.

Lemma settle_fuel_mono fuel fuel' r s s' o :
  fuel <= fuel' ->
  settle fuel r s = (s', o) -> o <> Diverge -> settle fuel' r s = (s', o).
Proof.
  intros Hle. apply settle_fuel_mono_from. intros. by apply (run_tools_fuel_mono fuel).
Qed.

Lemma execute_fuel_mono fuel fuel' s s' o :
  fuel <= fuel' ->
  execute fuel s = (s', o) -> o <> Diverge -> execute fuel' s = (s', o).
Proof.
  intros Hle H Hnd. rewrite execute_step in *.
  unfold bind at 1. unfold bind at 1 in H.
  destruct (_call_llm s) as [s1 [r|e|]]; [| done | done].
  unfold bind at 1. unfold bind at 1 in H. simpl in *.
  unfold bind in *.
  destruct (settle fuel r _) as [s2 o2] eqn:Hst.
  assert (Ho2 : o2 <> Diverge) by (intros ->; inversion H; by subst).
  by rewrite (settle_fuel_mono _ _ _ _ _ _ Hle Hst Ho2).
Qed.

Lemma invoke_fuel_mono fuel fuel' message s s' o :
  fuel <= fuel' ->
  invoke fuel message s = (s', o) -> o <> Diverge -> invoke fuel' message s = (s', o).
Proof.
  intros Hle H Hnd. rewrite invoke_step in *. unfold bind at 1. unfold bind at 1 in H.
  destruct (execute fuel _) as [s1 o1] eqn:He.
  assert (Ho1 : o1 <> Diverge) by (intros ->; inversion H; by subst).
  by rewrite (execute_fuel_mono _ _ _ _ _ Hle He Ho1).
Qed.

(** ** What the provider is sent *)

Lemma sent_by_only_messages s s' ev :
  only_messages s s' -> sent_by (self s') ev -> sent_by (self s) ev.
Proof.
  intros Hk. apply only_messages_fields in Hk as (_ & Hm & _ & Ht & _).
  destruct ev; simpl; [done | | done]. by rewrite Hm, Ht.
Qed.

Lemma sends_well_refl s : sends_well s s.
Proof.
  split; [apply only_messages_refl |]. exists []. by rewrite app_nil_r.
Qed.

Lemma sends_well_trans s1 s2 s3 :
  sends_well s1 s2 -> sends_well s2 s3 -> sends_well s1 s3.
Proof.
  intros [Hk1 (d1 & Ht1 & Hd1)] [Hk2 (d2 & Ht2 & Hd2)].
  split; [by eapply only_messages_trans |].
  exists (d1 ++ d2). split; [by rewrite Ht2, Ht1, app_assoc |].
  apply Forall_app. split; [done |].
  eapply Forall_impl; [exact Hd2 |]. intros ev. by apply sent_by_only_messages.
Qed.

Lemma sends_well_with_self l : keeps sends_well (with_self (set_messages l)).
Proof.
  intros s. split; [apply only_messages_with_self |].
  exists []. simpl. by rewrite app_nil_r.
Qed.

Lemma sends_well_print text : keeps sends_well (print text).
Proof.
  intros s. split; [apply only_messages_print |].
  exists [Print text]. split; [done |]. by repeat constructor.
Qed.

Lemma sends_well_call_llm : keeps sends_well _call_llm.
Proof.
  intros s. split; [apply only_messages_call_llm |].
  rewrite call_llm_eq. simpl. eexists. split; [done |].
  by repeat constructor.
Qed.

Lemma sends_well_call_tool fname f args : keeps sends_well (call_tool fname f args).
Proof.
  intros s. split; [apply only_messages_call_tool |].
  unfold call_tool. destruct (f args (world s)) as [w [x|e]]; simpl;
    (eexists; split; [done |]; by repeat constructor).
Qed.

(** C10: a provider call is made with the agent's model, the whole of
    [messages] as it stands, in order, and temperature 0.1; the tool schema
    is passed when it is not empty and the keyword is left out when it is.
    This is so for the call [_call_llm] makes from any state, and for every
    provider call in the trace of any sequence of [invoke], [execute] and
    [reset] calls. *)
Theorem every_provider_call_is_well_formed :
  (forall s, exists req res w,
     completion req (world s) = (w, res) /\
     _call_llm s =
       ({| self := self s; world := w;
           trace := trace s ++
             [Print (Fore_GREEN +:+ "LLM Call" +:+ nl); Completion req res] |},
        of_returned res) /\
     req_model req = model (self s) /\
     req_messages req = messages (self s) /\
     req_temperature req = 1 # 10 /\
     req_tools req =
       match tools (self s) with
       | [] => None
       | _ :: _ => Some (tools (self s))
       end) /\
  (forall fuel (cs : list Call) s,
     Forall (sent_by (self s)) (since s (run_calls fuel cs s))).
Proof.
  split.
  - intros s. exists (request_of (self s)).
    destruct (completion (request_of (self s)) (world s)) as [w res] eqn:Hc.
    exists res, w. split; [done |]. split; [by rewrite call_llm_eq, Hc |].
    repeat split. simpl. symmetry. apply tools_keyword.
  - intros fuel cs s.
    destruct (keeps_run_calls sends_well sends_well_refl sends_well_trans
                sends_well_with_self sends_well_print sends_well_call_llm
                sends_well_call_tool fuel cs s) as [_ (d & Ht & Hd)].
    by rewrite (since_app _ _ _ Ht).
Qed.

(** ** The tool results of one response *)

(** The loop of [_run_tools] on any list [tcs] of requests.  When they are
    all dispatched (the loop over them completes), the session
    state has grown by exactly one
    tool-result turn per request, in the order of the requests, each
    carrying the identifier and the tool name of its request and what the
    callable returned; no provider call was made meanwhile, and the next
    thing [_run_tools] does is the provider call that sends the session
    state with these turns at its end. *)
Lemma tool_results_precede_the_next_call fuel (tcs : list ToolCall) s s1 :
  for_each tcs run_tool s = (s1, Ret tt) ->
  exists texts res d,
    length texts = length tcs /\
    tool_results (since s s1) = texts /\
    completions (since s s1) = [] /\
    messages (self s1) =
      messages (self s) ++
      zip_with (fun tc text => ToolResult (tc_id tc) (fn_name (tc_function tc)) text)
        tcs texts /\
    since s (_run_tools (S fuel) tcs s).1 =
      since s s1 ++
      Print (Fore_GREEN +:+ "LLM Call" +:+ nl) ::
      Completion (request_of (self s1)) res :: d /\
    req_messages (request_of (self s1)) =
      messages (self s) ++
      zip_with (fun tc text => ToolResult (tc_id tc) (fn_name (tc_function tc)) text)
        tcs texts.
Proof.
  intros H. pose proof H as H0.
  apply for_each_run_tool_spec in H0 as (d1 & Ht1 & Hc1 & Hlen & Hs1).
  rewrite (since_app _ _ _ Ht1).
  assert (Hm : messages (self s1) =
               messages (self s) ++ zip_with tool_turn tcs (tool_results d1))
    by (by rewrite Hs1).
  assert (Hg : exists res d,
             trace (_run_tools (S fuel) tcs s).1 =
             trace s1 ++ Print (Fore_GREEN +:+ "LLM Call" +:+ nl) ::
               Completion (request_of (self s1)) res :: d).
  { rewrite run_tools_step, (bind_Ret _ _ _ _ _ H). unfold bind at 1.
    rewrite call_llm_eq.
    destruct (completion (request_of (self s1)) (world s1)) as [w [r|e]]; simpl.
    - unfold bind at 1. simpl.
      destruct (settle fuel r _) as [s' o] eqn:Hst.
      apply settle_spec in Hst as (d3 & Ht3 & _). simpl in Ht3. simpl.
      exists (Returns r), d3. by rewrite Ht3, <- app_assoc.
    - exists (Raises e), []. done. }
  destruct Hg as (res & d & Ht).
  exists (tool_results d1), res, d. repeat split; try done.
  apply since_app. by rewrite Ht, Ht1, <- app_assoc.
Qed.


(** ** Following a run along the responses it saw *)

Lemma call_llm_Returns {A} (k : Response -> M A) s w r :
  completion (request_of (self s)) (world s) = (w, Returns r) ->
  (response <- _call_llm ;; messages_append (FromProvider response) ;; k response) s =
  k r (received r w s).
Proof.
  intros Hc. unfold bind at 1. rewrite call_llm_eq, Hc. reflexivity.
Qed.

Lemma call_llm_Raises {A} (k : Response -> M A) s w e :
  completion (request_of (self s)) (world s) = (w, Raises e) ->
  (response <- _call_llm ;; messages_append (FromProvider response) ;; k response) s =
  ({| self := self s; world := w;
      trace := trace s ++
        [Print (Fore_GREEN +:+ "LLM Call" +:+ nl);
         Completion (request_of (self s)) (Raises e)] |}, Raise e).
Proof.
  intros Hc. unfold bind at 1. rewrite call_llm_eq, Hc. reflexivity.
Qed.

Lemma since_trans s1 s2 s3 :
  trace_grows s1 s2 -> trace_grows s2 s3 ->
  since s1 s3 = since s1 s2 ++ since s2 s3.
Proof.
  intros [d1 H1] [d2 H2].
  rewrite (since_app _ _ _ H1), (since_app _ _ _ H2).
  apply since_app. by rewrite H2, H1, app_assoc.
Qed.

Lemma settle_grows fuel r s s' o : settle fuel r s = (s', o) -> trace_grows s s'.
Proof. intros H. apply settle_spec in H as (d & Ht & _). by exists d. Qed.

Lemma since_received r w s s' :
  trace_grows (received r w s) s' ->
  responses (since s s') = r :: responses (since (received r w s) s').
Proof.
  intros Hg. rewrite (since_trans s (received r w s) s'); [| by eexists | done].
  rewrite responses_app. erewrite (since_app s (received r w s)); [| reflexivity].
  reflexivity.
Qed.

(** If [settle], on a response that asks for tools, saw another response,
    the handler did not run. *)
Lemma settle_inv_response fuel r tc tcs s s' o rb :
  tool_calls r = TCList (tc :: tcs) ->
  settle fuel r s = (s', o) ->
  responses (since s s') !! 0%nat = Some rb ->
  _run_tools fuel (tc :: tcs) s = (s', o).
Proof.
  intros Htc H Hrb. unfold settle in H.
  assert (Hbody : forall s0,
            (tc0 <- get_tool_calls r ;;
             if truthy tc0 then _run_tools fuel (calls_of tc0) else ret r) s0 =
            _run_tools fuel (tc :: tcs) s0).
  { intros s0. unfold bind, get_tool_calls. rewrite Htc. reflexivity. }
  apply try_except_inv in H as [[Hb _] | (s1 & e & Hb & He & Hh)];
    rewrite Hbody in Hb; [done |].
  apply run_tools_spec in Hb as (d & Ht & Ho & _). simpl in Ho. specialize (Ho He).
  unfold bind, print, ret in Hh. simpl in Hh. inversion Hh; subst.
  erewrite since_app in Hrb; [| simpl; by rewrite Ht, <- app_assoc].
  by rewrite responses_app, Ho in Hrb.
Qed.

(** If [_run_tools] saw a response, the dispatch had completed and the
    provider had answered; the rest of the run is [settle] on that
    response. *)
Lemma run_tools_inv_response fuel tcs s s' o rb :
  _run_tools fuel tcs s = (s', o) ->
  responses (since s s') !! 0%nat = Some rb ->
  exists fuel' s1 w,
    fuel = S fuel' /\
    for_each tcs run_tool s = (s1, Ret tt) /\
    completion (request_of (self s1)) (world s1) = (w, Returns rb) /\
    settle fuel' rb (received rb w s1) = (s', o) /\
    responses (since s s') = rb :: responses (since (received rb w s1) s').
Proof.
  intros H Hrb. destruct fuel as [|fuel'].
  { inversion H; subst. unfold since in Hrb. by rewrite drop_all in Hrb. }
  rewrite run_tools_step in H.
  apply bind_inv in H as [(s1 & [] & H1 & H) | [(e & H1 & ->) | (H1 & ->)]].
  2:{ apply for_each_run_tool_spec in H1 as (d1 & Ht1 & Hc1 & _).
      rewrite (since_app _ _ _ Ht1), (responses_no_completions _ Hc1) in Hrb. done. }
  2:{ by apply for_each_never_diverges in H1. }
  pose proof H1 as H0.
  apply for_each_run_tool_spec in H0 as (d1 & Ht1 & Hc1 & _).
  destruct (completion (request_of (self s1)) (world s1)) as [w [r|e]] eqn:Hc.
  - rewrite (call_llm_Returns _ _ _ _ Hc) in H.
    pose proof (settle_grows _ _ _ _ _ H) as Hg.
    assert (Hres : responses (since s s') =
                   r :: responses (since (received r w s1) s')).
    { rewrite (since_trans s s1 s'); [| by exists d1 |].
      - rewrite responses_app, (since_app _ _ _ Ht1),
          (responses_no_completions _ Hc1). simpl. by apply since_received.
      - eapply trace_grows_trans; [| exact Hg]. by eexists. }
    rewrite Hres in Hrb. injection Hrb as ->.
    exists fuel', s1, w. done.
  - rewrite (call_llm_Raises _ _ _ _ Hc) in H. inversion H; subst.
    erewrite since_app in Hrb; [| simpl; by rewrite Ht1, <- app_assoc].
    by rewrite responses_app, (responses_no_completions _ Hc1) in Hrb.
Qed.


Lemma execute_inv_response fuel s s' o ra :
  execute fuel s = (s', o) ->
  responses (since s s') !! 0%nat = Some ra ->
  exists w,
    completion (request_of (self s)) (world s) = (w, Returns ra) /\
    (response' <- settle fuel ra ;; ret (content response')) (received ra w s) = (s', o) /\
    responses (since s s') = ra :: responses (since (received ra w s) s').
Proof.
  intros H Hra. rewrite execute_step in H.
  destruct (completion (request_of (self s)) (world s)) as [w [r|e]] eqn:Hc.
  - rewrite (call_llm_Returns _ _ _ _ Hc) in H.
    assert (Hg : trace_grows (received r w s) s').
    { apply bind_inv in H as [(s1 & r' & H1 & H) | [(e & H1 & ->) | (H1 & ->)]];
        apply settle_grows in H1; [| done | done].
      inversion H; subst. done. }
    rewrite (since_received _ _ _ _ Hg) in Hra. injection Hra as ->.
    exists w. split; [done |]. split; [done |]. by apply since_received.
  - rewrite (call_llm_Raises _ _ _ _ Hc) in H. inversion H; subst.
    erewrite since_app in Hra; [| reflexivity]. done.
Qed.

(** ** One response, its requests, and the next provider call *)

(** On a response that asks for tools, the [try] statement runs
    [_run_tools] on the requests of that response; its handler can only add
    to what the run left in the trace. *)
Lemma settle_dispatches fuel r tc tcs s :
  tool_calls r = TCList (tc :: tcs) ->
  exists more,
    trace (settle fuel r s).1 = trace (_run_tools fuel (tc :: tcs) s).1 ++ more.
Proof.
  intros Htc. unfold settle, try_except.
  replace ((tc0 <- get_tool_calls r ;;
            if truthy tc0 then _run_tools fuel (calls_of tc0) else ret r) s)
    with (_run_tools fuel (tc :: tcs) s)
    by (unfold bind, get_tool_calls; by rewrite Htc).
  destruct (_run_tools fuel (tc :: tcs) s) as [s1 [r'|e|]]; simpl.
  - exists []. by rewrite app_nil_r.
  - destruct (is_Exception e); simpl.
    + by exists [Print no_tool_call].
    + exists []. by rewrite app_nil_r.
  - exists []. by rewrite app_nil_r.
Qed.

(** The round a response [r] with requests opens, from the state [s] in
    which [r] has just been appended. *)
Lemma settle_round fuel r tc tcs s s2 :
  tool_calls r = TCList (tc :: tcs) ->
  for_each (tc :: tcs) run_tool s = (s2, Ret tt) ->
  exists texts res d,
    length texts = length (tc :: tcs) /\
    tool_results (since s s2) = texts /\
    completions (since s s2) = [] /\
    messages (self s2) = messages (self s) ++ zip_with tool_turn (tc :: tcs) texts /\
    since s (settle (S fuel) r s).1 =
      since s s2 ++
      Print (Fore_GREEN +:+ "LLM Call" +:+ nl) ::
      Completion (request_of (self s2)) res :: d.
Proof.
  intros Htc Hfor.
  destruct (tool_results_precede_the_next_call fuel (tc :: tcs) s s2 Hfor)
    as (texts & res & d & Hlen & Hres & Hc & Hm & Ht & _).
  destruct (settle_dispatches (S fuel) r tc tcs s Htc) as [more Hmore].
  exists texts, res, (d ++ more). repeat split; try done.
  apply for_each_run_tool_spec in Hfor as (d1 & Ht1 & _).
  rewrite (since_app _ _ _ Ht1) in *.
  assert (Hrt : trace (_run_tools (S fuel) (tc :: tcs) s).1 =
                trace s ++ d1 ++
                Print (Fore_GREEN +:+ "LLM Call" +:+ nl) ::
                Completion (request_of (self s2)) res :: d).
  { destruct (run_tools_spec (S fuel) (tc :: tcs) s
                (_run_tools (S fuel) (tc :: tcs) s).1
                (_run_tools (S fuel) (tc :: tcs) s).2) as (d' & Hd' & _);
      [by destruct (_run_tools (S fuel) (tc :: tcs) s) |].
    rewrite (since_app _ _ _ Hd') in Ht. by rewrite Hd', Ht. }
  apply since_app. rewrite Hmore, Hrt. by rewrite <- !app_assoc.
Qed.

Lemma call_llm_Ret_received s s1 r :
  _call_llm s = (s1, Ret r) ->
  completion (request_of (self s)) (world s) = (s1.(world), Returns r) /\
  appended (FromProvider r) s1 = received r (world s1) s.
Proof.
  rewrite call_llm_eq. intros [= <- Hr]. apply of_returned_Ret in Hr. simpl.
  split; [| by rewrite Hr].
  destruct (completion (request_of (self s)) (world s)) as [w res]. simpl in *.
  by rewrite Hr.
Qed.

(** C4: take a provider response [r] that carries the requests
    [tc :: tcs], received by [execute] (first part) or by [_run_tools] in
    any later round (second part), and suppose its requests are all
    dispatched: the loop over them, started where [r] has just been
    appended, completes.  Then the session state has grown, after [r], by
    exactly one tool-result turn per request, in the order of the requests,
    each with the identifier and the function name of its request and what
    the callable returned; the only provider call so far in the round is
    the one that gave [r]; and the next thing that happens is the provider
    call that is sent the session state ending in these turns.  A response
    whose list of requests is empty (third part) gets no tool-result turn
    and no further provider call. *)
Theorem tool_requests_are_answered_before_the_next_call :
  (forall fuel s s1 r tc tcs s2,
     _call_llm s = (s1, Ret r) ->
     tool_calls r = TCList (tc :: tcs) ->
     for_each (tc :: tcs) run_tool (appended (FromProvider r) s1) = (s2, Ret tt) ->
     exists texts res d,
       length texts = length (tc :: tcs) /\
       tool_results (since s s2) = texts /\
       completions (since s s2) = [(request_of (self s), Returns r)] /\
       messages (self s2) =
         messages (self s) ++
         FromProvider r ::
         zip_with (fun tc text => ToolResult (tc_id tc) (fn_name (tc_function tc)) text)
           (tc :: tcs) texts /\
       since s (execute (S fuel) s).1 =
         since s s2 ++
         Print (Fore_GREEN +:+ "LLM Call" +:+ nl) ::
         Completion (request_of (self s2)) res :: d /\
       req_messages (request_of (self s2)) = messages (self s2)) /\
  (forall fuel (tcs0 : list ToolCall) s0 s s1 r tc tcs s2,
     for_each tcs0 run_tool s0 = (s, Ret tt) ->
     _call_llm s = (s1, Ret r) ->
     tool_calls r = TCList (tc :: tcs) ->
     for_each (tc :: tcs) run_tool (appended (FromProvider r) s1) = (s2, Ret tt) ->
     exists texts res d,
       length texts = length (tc :: tcs) /\
       tool_results (since s s2) = texts /\
       completions (since s s2) = [(request_of (self s), Returns r)] /\
       messages (self s2) =
         messages (self s) ++
         FromProvider r ::
         zip_with (fun tc text => ToolResult (tc_id tc) (fn_name (tc_function tc)) text)
           (tc :: tcs) texts /\
       since s (_run_tools (S (S fuel)) tcs0 s0).1 =
         since s s2 ++
         Print (Fore_GREEN +:+ "LLM Call" +:+ nl) ::
         Completion (request_of (self s2)) res :: d /\
       req_messages (request_of (self s2)) = messages (self s2)) /\
  (forall fuel s s1 r,
     _call_llm s = (s1, Ret r) ->
     tool_calls r = TCList [] ->
     messages (self (execute fuel s).1) = messages (self s) ++ [FromProvider r] /\
     completions (since s (execute fuel s).1) = [(request_of (self s), Returns r)] /\
     tool_results (since s (execute fuel s).1) = []).
Proof.
  assert (Hround : forall fuel s s1 r tc tcs s2,
    _call_llm s = (s1, Ret r) ->
    tool_calls r = TCList (tc :: tcs) ->
    for_each (tc :: tcs) run_tool (appended (FromProvider r) s1) = (s2, Ret tt) ->
    exists texts res d,
      length texts = length (tc :: tcs) /\
      tool_results (since s s2) = texts /\
      completions (since s s2) = [(request_of (self s), Returns r)] /\
      messages (self s2) =
        messages (self s) ++ FromProvider r :: zip_with tool_turn (tc :: tcs) texts /\
      since s (settle (S fuel) r (received r (world s1) s)).1 =
        since s s2 ++
        Print (Fore_GREEN +:+ "LLM Call" +:+ nl) ::
        Completion (request_of (self s2)) res :: d).
  { intros fuel s s1 r tc tcs s2 Hllm Htc Hfor.
    apply call_llm_Ret_received in Hllm as [Hc Hrec]. rewrite Hrec in Hfor.
    destruct (settle_round fuel r tc tcs _ s2 Htc Hfor)
      as (texts & res & d & Hlen & Hres & Hcs & Hm & Ht).
    assert (Hg1 : trace_grows s (received r (world s1) s)) by (by eexists).
    assert (Hg2 : trace_grows (received r (world s1) s) s2).
    { apply for_each_run_tool_spec in Hfor as (d1 & Ht1 & _). by exists d1. }
    assert (Hg3 : trace_grows (received r (world s1) s)
                    (settle (S fuel) r (received r (world s1) s)).1).
    { destruct (settle (S fuel) r (received r (world s1) s)) as [s' o] eqn:Hst.
      by apply settle_grows in Hst. }
    assert (Hfirst : since s (received r (world s1) s) =
                     [Print (Fore_GREEN +:+ "LLM Call" +:+ nl);
                      Completion (request_of (self s)) (Returns r)])
      by (by apply since_app).
    exists texts, res, d.
    rewrite (since_trans s _ s2 Hg1 Hg2), (since_trans s _ _ Hg1 Hg3), Hfirst.
    rewrite tool_results_app, completions_app, Hres, Hcs, Ht.
    repeat split; try done.
    rewrite Hm. simpl. by rewrite <- app_assoc. }
  split; [| split].
  - intros fuel s s1 r tc tcs s2 Hllm Htc Hfor.
    destruct (Hround fuel s s1 r tc tcs s2 Hllm Htc Hfor)
      as (texts & res & d & Hlen & Hres & Hcs & Hm & Ht).
    exists texts, res, d. repeat split; try done.
    rewrite <- Ht. unfold since. f_equal. f_equal.
    apply call_llm_Ret_received in Hllm as [Hc _].
    rewrite execute_step, (call_llm_Returns _ _ _ _ Hc). unfold bind.
    by destruct (settle (S fuel) r _) as [s' [r'|e|]].
  - intros fuel tcs0 s0 s s1 r tc tcs s2 Hfor0 Hllm Htc Hfor.
    destruct (Hround fuel s s1 r tc tcs s2 Hllm Htc Hfor)
      as (texts & res & d & Hlen & Hres & Hcs & Hm & Ht).
    exists texts, res, d. repeat split; try done.
    rewrite <- Ht. unfold since. f_equal. f_equal.
    apply call_llm_Ret_received in Hllm as [Hc _].
    by rewrite run_tools_step, (bind_Ret _ _ _ _ _ Hfor0), (call_llm_Returns _ _ _ _ Hc).
  - intros fuel s s1 r Hllm Htc.
    apply call_llm_Ret_received in Hllm as [Hc _].
    assert (Hq : requests_tools r = false) by (unfold requests_tools; by rewrite Htc).
    rewrite execute_step, (call_llm_Returns _ _ _ _ Hc). unfold bind.
    rewrite (settle_quiet _ _ _ Hq). simpl. split; [done |].
    unfold diagnostic. rewrite Htc, app_nil_r.
    erewrite since_app; [| reflexivity]. done.
Qed.

(** C6, as amended: take an [invoke] on a freshly seeded agent during which
    the provider's first response asks for exactly two tools and its second
    response asks for none.  Then the text returned is the text content of
    the second response, and the session state just before the final
    [reset] is: the system turn if one is configured, the user turn, the
    first response, the two tool-result turns in the order of the requests,
    the second response, and the assistant turn that [invoke] itself
    appends with the returned text. *)
Theorem two_requests_then_none fuel message s s' o r1 r2 t1 t2 :
  messages (self s) = seed (system_prompt (self s)) ->
  invoke_before_reset fuel message s = (s', o) ->
  responses (since s s') !! 0%nat = Some r1 ->
  responses (since s s') !! 1%nat = Some r2 ->
  tool_calls r1 = TCList [t1; t2] ->
  requests_tools r2 = false ->
  exists x1 x2,
    o = Ret (content r2) /\
    messages (self s') =
      seed (system_prompt (self s)) ++
      [Turn user message;
       FromProvider r1;
       ToolResult (tc_id t1) (fn_name (tc_function t1)) x1;
       ToolResult (tc_id t2) (fn_name (tc_function t2)) x2;
       FromProvider r2;
       Turn assistant (content r2)] /\
    invoke fuel message s = ((reset s').1, Ret (content r2)).
Proof.
  intros Hseed H Hr1 Hr2 Htc Hq.
  assert (Hinv : invoke fuel message s =
                 (result <- (fun _ => (s', o)) ;; reset ;; ret result) s).
  { unfold invoke. unfold bind at 1 3. by rewrite H. }
  rewrite invoke_before_reset_step in H.
  destruct (execute fuel (with_user_turn message s)) as [se oe] eqn:He.
  assert (Hse : since s s' = Print (Fore_GREEN +:+ "Calling agent: " +:+ name (self s) +:+ nl)
                  :: since (with_user_turn message s) se).
  { pose proof He as He'. apply execute_spec in He' as (d & Ht & _).
    rewrite (since_app _ _ _ Ht). apply since_app.
    unfold bind in H. rewrite He in H.
    destruct oe; inversion H; subst; simpl; rewrite Ht; simpl; by rewrite <- app_assoc. }
  rewrite Hse in Hr1, Hr2. simpl in Hr1, Hr2.
  unfold bind at 1 in H. rewrite He in H.
  apply execute_inv_response with (ra := r1) in He as (w1 & Hc1 & He & Hres1); [| done].
  rewrite Hres1 in Hr2. simpl in Hr2.
  apply bind_inv in He as [(s4 & r' & Hst & He) | [(e & Hst & ->) | (Hst & ->)]];
    [inversion He; subst; clear He | |].
  all: apply settle_inv_response with (tc := t1) (tcs := [t2]) (rb := r2) in Hst;
    [| done | done].
  all: apply run_tools_inv_response with (rb := r2) in Hst
         as (fuel' & s5 & w2 & -> & Hfor & Hc2 & Hst & _); [| done].
  all: rewrite (settle_quiet _ _ _ Hq) in Hst; inversion Hst; subst; clear Hst.
  apply for_each_run_tool_spec in Hfor as (d1 & Ht1 & _ & Hlen & Hs5).
  destruct (tool_results d1) as [|x1 [|x2 [|x3 l]]]; try done.
  exists x1, x2. unfold bind in H. simpl in H. inversion H; subst. clear H.
  split; [done |]. split.
  - simpl. rewrite Hs5. simpl. rewrite Hseed. by rewrite <- !app_assoc.
  - rewrite Hinv. unfold bind. simpl. by rewrite !reset_eq.
Qed.

End Properties.

(** * Further properties of the class *)

Section Further.
Context {Data : PyData} {Ext : Externals}.
Implicit Types (s : State) (a : Agent) (d : list Event).

(** ** Vocabulary *)

(** The names of the callables run over a stretch of trace, in order. *)
Definition called_of (ev : Event) : option string :=
  match ev with
  | ToolRun fname _ _ => Some fname
  | _ => None
  end.
Definition called (d : list Event) : list string := omap called_of d.

(** The [messages] keyword of each provider call of a stretch of trace. *)
Definition request_messages (d : list Event) : list (list Message) :=
  (fun c => req_messages c.1) <$> completions d.

(** [l] goes up from [lo] to [hi], each list a prefix of the next. *)
Fixpoint chain (lo : list Message) (l : list (list Message)) (hi : list Message)
    : Prop :=
  match l with
  | [] => lo `prefix_of` hi
  | x :: l' => lo `prefix_of` x /\ chain x l' hi
  end.

(** Every provider call between [s] and [s'] was sent a session state that
    extends the one sent before it, from that of [s] up to that of [s']. *)
Definition history_kept (s s' : State) : Prop :=
  exists d,
    trace s' = trace s ++ d /\
    chain (messages (self s)) (request_messages d) (messages (self s')).

(** A callable that was run is the one registered under its name. *)
Definition from_registry (a : Agent) (ev : Event) : Prop :=
  match ev with
  | ToolRun fname args res =>
      exists (f : Tool) w w',
        available_tools a !! fname = Some f /\ f args w = (w', res)
  | _ => True
  end.

Definition runs_registered (s s' : State) : Prop :=
  only_messages s s' /\
  exists d, trace s' = trace s ++ d /\ Forall (from_registry (self s)) d.

(** ** Relations the loop keeps

    As in [Frame], for relations that need not survive [reset] or a
    callable run under an arbitrary name: what is asked of them is that
    appending a message and a whole [run_tool] keep them. *)

Section Loop.
Variable R : State -> State -> Prop.
Hypothesis R_refl : forall s, R s s.
Hypothesis R_trans : forall s1 s2 s3, R s1 s2 -> R s2 s3 -> R s1 s3.
Hypothesis R_append : forall m, keeps R (messages_append m).
Hypothesis R_print : forall text, keeps R (print text).
Hypothesis R_call_llm : keeps R _call_llm.
Hypothesis R_run_tool : forall tc, keeps R (run_tool tc).

Lemma loop_keeps_settle_from fuel (r : Response) :
  (forall tcs, keeps R (_run_tools fuel tcs)) -> keeps R (settle fuel r).
Proof.
  intros IH. apply keeps_try_except; [exact R_trans | |].
  - apply keeps_bind; [exact R_trans | by apply keeps_get_tool_calls |].
    intros tc. destruct (truthy tc); [apply IH | by apply keeps_ret].
  - intros _. by apply keeps_handler.
Qed.

Lemma loop_keeps_run_tools fuel : forall tcs, keeps R (_run_tools fuel tcs).
Proof.
  induction fuel as [|fuel IH]; intros tcs.
  - by apply keeps_diverge.
  - rewrite run_tools_step.
    apply keeps_bind; [exact R_trans | by apply keeps_for_each |]. intros _.
    apply keeps_bind; [exact R_trans | exact R_call_llm |]. intros r.
    apply keeps_bind; [exact R_trans | apply R_append |]. intros _.
    by apply loop_keeps_settle_from.
Qed.

Lemma loop_keeps_execute fuel : keeps R (execute fuel).
Proof.
  rewrite execute_step.
  apply keeps_bind; [exact R_trans | exact R_call_llm |]. intros r.
  apply keeps_bind; [exact R_trans | apply R_append |]. intros _.
  apply keeps_bind; [exact R_trans | | intros r'; by apply keeps_ret].
  apply loop_keeps_settle_from, loop_keeps_run_tools.
Qed.

Hypothesis R_reset : keeps R reset.

Lemma loop_keeps_invoke fuel message : keeps R (invoke fuel message).
Proof.
  unfold invoke, invoke_before_reset.
  apply keeps_bind; [exact R_trans | | intros r].
  - apply keeps_bind; [exact R_trans | by apply keeps_get_self | intros a].
    apply keeps_bind; [exact R_trans | apply R_print | intros _].
    apply keeps_bind; [exact R_trans | apply R_append | intros _].
    apply keeps_bind; [exact R_trans | apply loop_keeps_execute | intros r].
    apply keeps_bind; [exact R_trans | apply R_append | intros _].
    by apply keeps_ret.
  - apply keeps_bind; [exact R_trans | exact R_reset | intros _].
    by apply keeps_ret.
Qed.

Lemma loop_keeps_run_calls fuel cs : forall s, R s (run_calls fuel cs s).
Proof.
  induction cs as [|c cs IH]; intros s; simpl; [apply R_refl |].
  eapply R_trans; [| apply IH]. destruct c; simpl.
  - apply keeps_bind; [exact R_trans | apply loop_keeps_invoke |].
    intros _. by apply keeps_ret.
  - apply keeps_bind; [exact R_trans | apply loop_keeps_execute |].
    intros _. by apply keeps_ret.
  - apply R_reset.
Qed.

End Loop.


(** ** reset and the constructor *)

(** X1: whatever was called on an agent since it was constructed, and however
    those calls ended, [reset] puts it back exactly as [__init__] built it,
    session state included. *)
Theorem reset_restores_the_constructed_agent
    (name0 model0 : string) (tools0 : list PyObject)
    (available_tools0 : gmap string Tool) (system_prompt0 : string)
    (w : World) (tr : list Event) fuel (cs : list Call) :
  self (reset (run_calls fuel cs
                 {| self := __init__ name0 model0 tools0 available_tools0 system_prompt0;
                    world := w; trace := tr |})).1 =
  __init__ name0 model0 tools0 available_tools0 system_prompt0.
Proof.
  set (s0 := {| self := __init__ name0 model0 tools0 available_tools0 system_prompt0;
                world := w; trace := tr |}).
  pose proof (keeps_run_calls only_messages only_messages_refl only_messages_trans
                only_messages_with_self only_messages_print only_messages_call_llm
                only_messages_call_tool fuel cs s0) as Hk.
  rewrite reset_eq. simpl. unfold only_messages in Hk. rewrite Hk. reflexivity.
Qed.

(** ** The first provider call of a run *)

Lemma execute_grows fuel s : trace_grows s (execute fuel s).1.
Proof.
  destruct (execute fuel s) as [s' o] eqn:H.
  apply execute_spec in H as (d & Ht & _). by exists d.
Qed.

Lemma invoke_trace fuel message s :
  since s (invoke fuel message s).1 =
  Print (Fore_GREEN +:+ "Calling agent: " +:+ name (self s) +:+ nl) ::
  since (with_user_turn message s) (execute fuel (with_user_turn message s)).1.
Proof.
  destruct (execute_grows fuel (with_user_turn message s)) as [d Ht].
  rewrite (since_app _ _ _ Ht). apply since_app.
  rewrite invoke_step. unfold bind at 1.
  destruct (execute fuel (with_user_turn message s)) as [s1 [text|e|]];
    simpl in *; unfold bind; simpl; rewrite ?reset_eq; simpl; rewrite Ht; simpl;
    by rewrite <- app_assoc.
Qed.

Lemma execute_first_request fuel s :
  exists res d,
    since s (execute fuel s).1 =
    Print (Fore_GREEN +:+ "LLM Call" +:+ nl) ::
    Completion (request_of (self s)) res :: d.
Proof.
  rewrite execute_step.
  destruct (completion (request_of (self s)) (world s)) as [w [r|e]] eqn:Hc.
  - rewrite (call_llm_Returns _ _ _ _ Hc).
    assert (Hg : trace_grows (received r w s)
                   ((response' <- settle fuel r ;; ret (content response'))
                      (received r w s)).1).
    { unfold bind. destruct (settle fuel r (received r w s)) as [s1 o] eqn:Hst.
      apply settle_grows in Hst. by destruct o. }
    destruct Hg as [d Ht]. exists (Returns r), d.
    apply since_app. rewrite Ht. simpl. by rewrite <- app_assoc.
  - rewrite (call_llm_Raises _ _ _ _ Hc). exists (Raises e), [].
    by apply since_app.
Qed.

(** ** An exception that leaves invoke *)

(** X2: [invoke] has no [finally]: when an [Exception] leaves it, [reset] is
    skipped.  The session state is then what it was plus the user turn of
    the failed call, and the next [invoke] on the agent sends that stale
    turn to the provider in front of its own. *)
Theorem failed_invoke_leaves_its_user_turn fuel message s s' e :
  invoke fuel message s = (s', Raise e) ->
  is_Exception e = true ->
  messages (self s') = messages (self s) ++ [Turn user message] /\
  forall fuel' message', exists req res later,
    completions (since s' (invoke fuel' message' s').1) = (req, res) :: later /\
    req_messages req =
      messages (self s) ++ [Turn user message; Turn user message'].
Proof.
  intros H He.
  assert (Hm : messages (self s') = messages (self s) ++ [Turn user message]).
  { rewrite invoke_step in H. unfold bind at 1 in H.
    destruct (execute fuel (with_user_turn message s)) as [s1 [text|e1|]] eqn:Hx.
    - unfold bind in H. simpl in H. rewrite reset_eq in H. inversion H.
    - inversion H; subst. clear H.
      rewrite execute_step in Hx.
      destruct (completion (request_of (self (with_user_turn message s)))
                  (world (with_user_turn message s))) as [w [r|e2]] eqn:Hc.
      + rewrite (call_llm_Returns _ _ _ _ Hc) in Hx.
        apply bind_inv in Hx as [(s2 & r' & Hst & Hx) | [(e2 & Hst & Heq) | (_ & [=])]].
        * inversion Hx.
        * injection Heq as <-.
          apply settle_spec in Hst as (d & _ & Ho & _). simpl in Ho. congruence.
      + rewrite (call_llm_Raises _ _ _ _ Hc) in Hx. by inversion Hx.
    - inversion H. }
  split; [exact Hm |].
  intros fuel' message'.
  destruct (execute_first_request fuel' (with_user_turn message' s')) as (res & d & Hd).
  exists (request_of (self (with_user_turn message' s'))), res, (completions d).
  split.
  - rewrite invoke_trace, Hd. reflexivity.
  - simpl. rewrite Hm. by rewrite <- app_assoc.
Qed.

(** ** Only registered callables are run *)

Lemma runs_registered_refl s : runs_registered s s.
Proof.
  split; [apply only_messages_refl |]. exists []. by rewrite app_nil_r.
Qed.

Lemma from_registry_only_messages s s' ev :
  only_messages s s' -> from_registry (self s') ev -> from_registry (self s) ev.
Proof.
  intros Hk. apply only_messages_fields in Hk as (_ & _ & _ & _ & Ha).
  destruct ev; simpl; [done | done |]. by rewrite Ha.
Qed.

Lemma runs_registered_trans s1 s2 s3 :
  runs_registered s1 s2 -> runs_registered s2 s3 -> runs_registered s1 s3.
Proof.
  intros [Hk1 (d1 & Ht1 & Hd1)] [Hk2 (d2 & Ht2 & Hd2)].
  split; [by eapply only_messages_trans |].
  exists (d1 ++ d2). split; [by rewrite Ht2, Ht1, app_assoc |].
  apply Forall_app. split; [done |].
  eapply Forall_impl; [exact Hd2 |]. intros ev. by apply from_registry_only_messages.
Qed.

Lemma runs_registered_quiet {A} (m : M A) :
  keeps only_messages m ->
  (forall s, exists d, trace (m s).1 = trace s ++ d /\
      Forall (fun ev => called_of ev = None) d) ->
  keeps runs_registered m.
Proof.
  intros Hk Hq s. split; [apply Hk |].
  destruct (Hq s) as (d & Ht & Hd). exists d. split; [done |].
  eapply Forall_impl; [exact Hd |]. intros [t|req res|f x res]; simpl; done.
Qed.

Lemma runs_registered_append m : keeps runs_registered (messages_append m).
Proof.
  apply runs_registered_quiet.
  - intros s. apply (only_messages_with_self (messages (self s) ++ [m]) s).
  - intros s. exists []. simpl. by rewrite app_nil_r.
Qed.

Lemma runs_registered_print text : keeps runs_registered (print text).
Proof.
  apply runs_registered_quiet; [apply only_messages_print |].
  intros s. exists [Print text]. split; [done |]. by repeat constructor.
Qed.

Lemma runs_registered_call_llm : keeps runs_registered _call_llm.
Proof.
  apply runs_registered_quiet; [apply only_messages_call_llm |].
  intros s. rewrite call_llm_eq. simpl. eexists. split; [done |].
  by repeat constructor.
Qed.

Lemma runs_registered_reset : keeps runs_registered reset.
Proof.
  apply runs_registered_quiet.
  - apply (keeps_reset only_messages only_messages_refl only_messages_trans
             only_messages_with_self).
  - intros s. rewrite reset_eq. exists []. simpl. by rewrite app_nil_r.
Qed.

Lemma runs_registered_run_tool tc : keeps runs_registered (run_tool tc).
Proof.
  intros s. split.
  { apply (keeps_run_tool only_messages only_messages_refl only_messages_trans
             only_messages_with_self only_messages_print only_messages_call_tool). }
  unfold run_tool, bind, get_self, print, call_tool, messages_append, with_self, log.
  simpl.
  destruct (available_tools (self s) !! fn_name (tc_function tc)) as [f|] eqn:Hf; simpl.
  2:{ exists []. by rewrite app_nil_r. }
  destruct (json_loads (fn_arguments (tc_function tc))) as [args|]; simpl.
  2:{ exists []. by rewrite app_nil_r. }
  destruct (f args (world s)) as [w [text|e]] eqn:Hr; simpl;
    (eexists; split; [by rewrite <- !app_assoc |]);
    repeat constructor; exists f, (world s), w; done.
Qed.

(** Over any sequence of [invoke], [execute] and [reset] calls, every
    callable that is run is the one the registry holds under the name the
    provider gave: nothing outside [available_tools] is ever called. *)
Lemma only_registered_tools_are_called fuel (cs : list Call) s :
  Forall
    (fun ev =>
       match ev with
       | ToolRun fname args res =>
           exists (f : Tool) w w',
             available_tools (self s) !! fname = Some f /\ f args w = (w', res)
       | _ => True
       end)
    (since s (run_calls fuel cs s)).
Proof.
  destruct (loop_keeps_run_calls runs_registered runs_registered_refl
              runs_registered_trans runs_registered_append runs_registered_print
              runs_registered_call_llm runs_registered_run_tool
              runs_registered_reset fuel cs s) as [_ (d & Ht & Hd)].
  by rewrite (since_app _ _ _ Ht).
Qed.


(** ** The provider is always sent the whole history *)

Lemma chain_weaken lo lo' l hi :
  lo `prefix_of` lo' -> chain lo' l hi -> chain lo l hi.
Proof.
  intros Hp. destruct l as [|x l]; simpl.
  - intros H. by etrans.
  - intros [H1 H2]. split; [by etrans | done].
Qed.

Lemma chain_app lo l1 mid l2 hi :
  chain lo l1 mid -> chain mid l2 hi -> chain lo (l1 ++ l2) hi.
Proof.
  revert lo. induction l1 as [|x l1 IH]; intros lo; simpl.
  - apply chain_weaken.
  - intros [H1 H2] H3. split; [done | by apply IH].
Qed.

Lemma chain_bounds lo l hi : chain lo l hi -> lo `prefix_of` hi.
Proof.
  revert lo. induction l as [|x l IH]; intros lo; simpl; [done |].
  intros [H1 H2]. etrans; [exact H1 | by apply IH].
Qed.

Lemma chain_lookup_one lo l hi (j : nat) y :
  chain lo l hi -> l !! j = Some y -> lo `prefix_of` y /\ y `prefix_of` hi.
Proof.
  revert lo j. induction l as [|z l IH]; intros lo j Hc Hj; [done |].
  destruct Hc as [H1 H2]. destruct j as [|j].
  - injection Hj as ->. split; [done | by eapply chain_bounds].
  - destruct (IH z j H2 Hj) as [Ha Hb]. split; [by etrans | done].
Qed.

Lemma chain_lookup lo l hi (i j : nat) x y :
  chain lo l hi -> i <= j -> l !! i = Some x -> l !! j = Some y ->
  lo `prefix_of` x /\ x `prefix_of` y /\ y `prefix_of` hi.
Proof.
  revert lo i j. induction l as [|z l IH]; intros lo i j Hc Hij Hi Hj; [done |].
  destruct Hc as [H1 H2]. destruct i as [|i].
  - injection Hi as ->. split; [done |]. destruct j as [|j].
    + injection Hj as ->. split; [done | by eapply chain_bounds].
    + by eapply chain_lookup_one.
  - destruct j as [|j]; [lia |].
    destruct (IH z i j H2 ltac:(lia) Hi Hj) as (Ha & Hb & Hc).
    split; [by etrans | done].
Qed.

Lemma request_messages_app d1 d2 :
  request_messages (d1 ++ d2) = request_messages d1 ++ request_messages d2.
Proof. unfold request_messages. by rewrite completions_app, fmap_app. Qed.

Lemma history_kept_refl s : history_kept s s.
Proof. exists []. split; [by rewrite app_nil_r | simpl; reflexivity]. Qed.

Lemma history_kept_trans s1 s2 s3 :
  history_kept s1 s2 -> history_kept s2 s3 -> history_kept s1 s3.
Proof.
  intros (d1 & Ht1 & Hc1) (d2 & Ht2 & Hc2). exists (d1 ++ d2).
  split; [by rewrite Ht2, Ht1, app_assoc |].
  rewrite request_messages_app. by eapply chain_app.
Qed.

Lemma history_kept_append m : keeps history_kept (messages_append m).
Proof.
  intros s. exists []. simpl. split; [by rewrite app_nil_r |].
  by apply prefix_app_r.
Qed.

Lemma history_kept_print text : keeps history_kept (print text).
Proof. intros s. exists [Print text]. split; [done | simpl; reflexivity]. Qed.

Lemma history_kept_call_llm : keeps history_kept _call_llm.
Proof.
  intros s. rewrite call_llm_eq. simpl. eexists. split; [done |]. simpl.
  split; reflexivity.
Qed.

Lemma history_kept_run_tool tc : keeps history_kept (run_tool tc).
Proof.
  intros s. destruct (run_tool tc s) as [s' o] eqn:H. simpl.
  apply run_tool_spec in H as (d & Ht & Hc & Ho). exists d. split; [done |].
  unfold request_messages. rewrite Hc. simpl.
  destruct o as [[]|e|]; [| rewrite Ho; reflexivity | done].
  destruct Ho as (f & args & text & w & _ & _ & _ & _ & ->). simpl.
  by apply prefix_app_r.
Qed.

Lemma execute_history_kept fuel s : history_kept s (execute fuel s).1.
Proof.
  apply (loop_keeps_execute history_kept history_kept_refl history_kept_trans
           history_kept_append history_kept_print history_kept_call_llm
           history_kept_run_tool).
Qed.

(** X4: [execute] only ever appends to the session state: what was there when
    it was called is still there, in place, when it ends, however it ends.
    Called on its own it resets nothing. *)
Theorem execute_only_appends fuel s :
  messages (self s) `prefix_of` messages (self (execute fuel s).1).
Proof.
  destruct (execute_history_kept fuel s) as (d & _ & Hc).
  by eapply chain_bounds.
Qed.

(** X5: during one [invoke], nothing is dropped between rounds: every provider
    call is sent a session state that begins with the one the call started
    from followed by the user turn, and each later provider call is sent
    an extension of what an earlier one was sent. *)
Theorem requests_extend_one_another fuel message s (i j : nat) earlier later :
  i <= j ->
  request_messages (since s (invoke fuel message s).1) !! i = Some earlier ->
  request_messages (since s (invoke fuel message s).1) !! j = Some later ->
  (messages (self s) ++ [Turn user message]) `prefix_of` earlier /\
  earlier `prefix_of` later.
Proof.
  intros Hij Hi Hj. rewrite invoke_trace in Hi, Hj.
  destruct (execute_history_kept fuel (with_user_turn message s)) as (d & Ht & Hc).
  rewrite (since_app _ _ _ Ht) in Hi, Hj.
  change (request_messages (Print ?t :: d)) with (request_messages d) in Hi, Hj.
  destruct (chain_lookup _ _ _ _ _ _ _ Hc Hij Hi Hj) as (Ha & Hb & _). done.
Qed.

(** ** The order of the tool calls, and the first failure *)

Lemma called_app d1 d2 : called (d1 ++ d2) = called d1 ++ called d2.
Proof. apply omap_app. Qed.

Lemma run_tool_called tc s s' o :
  run_tool tc s = (s', o) ->
  exists d,
    trace s' = trace s ++ d /\
    match o with
    | Ret _ =>
        called d = [fn_name (tc_function tc)] /\
        exists text,
          tool_results d = [text] /\
          self s' = set_messages (messages (self s) ++ [tool_turn tc text]) (self s)
    | Raise e =>
        (called d = [] \/ called d = [fn_name (tc_function tc)]) /\
        tool_results d = [] /\ self s' = self s
    | Diverge => False
    end.
Proof.
  unfold run_tool, bind, get_self, print, call_tool, messages_append, with_self, log.
  simpl.
  destruct (available_tools (self s) !! fn_name (tc_function tc)) as [f|]; simpl.
  2:{ intros [= <- <-]. exists []. rewrite app_nil_r. auto. }
  destruct (json_loads (fn_arguments (tc_function tc))) as [args|]; simpl.
  2:{ intros [= <- <-]. exists []. rewrite app_nil_r. auto. }
  destruct (f args (world s)) as [w [text|e]]; simpl; intros [= <- <-]; simpl;
    eexists; (split; [by rewrite <- !app_assoc |]); simpl.
  - split; [done |]. by exists text.
  - auto.
Qed.

Lemma for_each_run_tool_called tcs : forall s s' o,
  for_each tcs run_tool s = (s', o) ->
  exists d,
    trace s' = trace s ++ d /\
    match o with
    | Ret _ => called d = (fun tc => fn_name (tc_function tc)) <$> tcs
    | Raise e =>
        exists before tc after,
          tcs = before ++ tc :: after /\
          (called d = (fun tc => fn_name (tc_function tc)) <$> before \/
           called d = (fun tc => fn_name (tc_function tc)) <$> before ++ [tc]) /\
          length (tool_results d) = length before /\
          self s' =
            set_messages
              (messages (self s) ++ zip_with tool_turn before (tool_results d))
              (self s)
    | Diverge => False
    end.
Proof.
  induction tcs as [|tc tcs IH]; intros s s' o; simpl.
  - intros [= <- <-]. exists []. by rewrite app_nil_r.
  - intros H. apply bind_inv in H as [(s1 & [] & H1 & H) | [(e & H1 & ->) | (H1 & ->)]].
    + apply run_tool_called in H1 as (d1 & Ht1 & Hc1 & text & Hr1 & Hs1).
      apply IH in H as (d2 & Ht2 & Ho).
      exists (d1 ++ d2). split; [by rewrite Ht2, Ht1, app_assoc |].
      rewrite called_app, tool_results_app, Hc1, Hr1.
      destruct o as [[]|e|]; [by rewrite Ho | | done].
      destruct Ho as (before & tc' & after & -> & Hc & Hlen & Hs').
      exists (tc :: before), tc', after. split; [done |]. split.
      * destruct Hc as [-> | ->]; [by left | by right].
      * simpl. split; [by rewrite Hlen |].
        rewrite Hs', Hs1. unfold set_messages. simpl. by rewrite <- app_assoc.
    + apply run_tool_called in H1 as (d1 & Ht1 & Hc1 & Hr1 & Hs1).
      exists d1. split; [done |]. exists [], tc, tcs. split; [done |].
      rewrite Hr1, Hs1. simpl. split; [done |]. split; [done |].
      unfold set_messages. rewrite app_nil_r. by destruct (self s).
    + by apply run_tool_called in H1 as (d1 & _ & []).
Qed.

(** X6: the callables are run one at a time in the order of the requests, each
    at most once: what was run is a prefix of the requested names, and all
    of them when the loop completes. *)
Theorem tools_are_called_in_request_order (tcs : list ToolCall) s s' o :
  for_each tcs run_tool s = (s', o) ->
  called (since s s') `prefix_of` (fun tc => fn_name (tc_function tc)) <$> tcs /\
  (o = Ret tt -> called (since s s') = (fun tc => fn_name (tc_function tc)) <$> tcs).
Proof.
  intros H. apply for_each_run_tool_called in H as (d & Ht & Ho).
  rewrite (since_app _ _ _ Ht). destruct o as [[]|e|]; [| | done].
  - rewrite Ho. done.
  - split; [| done]. destruct Ho as (before & tc & after & -> & Hc & _).
    rewrite fmap_app. simpl. destruct Hc as [-> | ->].
    + by eexists.
    + rewrite fmap_app. simpl.
      exists ((fun tc => fn_name (tc_function tc)) <$> after).
      by rewrite <- app_assoc.
Qed.

(** X7: the loop over the requests stops at the first one that fails: the
    requests after it are not looked at, the tool-result turns of the ones
    before it stay in the session state, and nothing is appended for the
    failed one. *)
Theorem dispatch_stops_at_the_first_failure (tcs : list ToolCall) s s' e :
  for_each tcs run_tool s = (s', Raise e) ->
  exists before failed after texts,
    tcs = before ++ failed :: after /\
    length texts = length before /\
    tool_results (since s s') = texts /\
    length (called (since s s')) <= S (length before) /\
    messages (self s') =
      messages (self s) ++
      zip_with (fun tc text => ToolResult (tc_id tc) (fn_name (tc_function tc)) text)
        before texts.
Proof.
  intros H. apply for_each_run_tool_called in H as (d & Ht & Ho).
  rewrite (since_app _ _ _ Ht).
  destruct Ho as (before & tc & after & -> & Hc & Hlen & Hs').
  exists before, tc, after, (tool_results d). repeat split; try done.
  - destruct Hc as [-> | ->]; rewrite length_fmap, ?length_app; simpl; lia.
  - by rewrite Hs'.
Qed.


(** ** When the loop goes round again *)

Lemma responses_diagnostic r : responses (diagnostic r) = [].
Proof. unfold diagnostic. by destruct (tool_calls r). Qed.

Lemma settle_only_last_from fuel :
  (forall tcs s s' o (i : nat) r,
     _run_tools fuel tcs s = (s', o) ->
     responses (since s s') !! i = Some r ->
     requests_tools r = false ->
     length (responses (since s s')) = S i) ->
  forall rb s s' o,
    settle fuel rb s = (s', o) ->
    (requests_tools rb = false -> responses (since s s') = []) /\
    (forall (i : nat) r,
       responses (since s s') !! i = Some r ->
       requests_tools r = false ->
       length (responses (since s s')) = S i).
Proof.
  intros IH rb s s' o H. destruct (requests_tools rb) eqn:Hq.
  - split; [done |]. intros i r Hi Hr.
    apply requests_tools_truthy in Hq as (tc & l & Htc).
    destruct (responses (since s s')) as [|r0 rs] eqn:Hrs; [done |].
    assert (H0 : responses (since s s') !! 0%nat = Some r0) by (by rewrite Hrs).
    pose proof (settle_inv_response _ _ _ _ _ _ _ _ Htc H H0) as Hrt.
    rewrite <- Hrs in *. by eapply IH.
  - rewrite (settle_quiet _ _ _ Hq) in H. inversion H; subst.
    erewrite since_app; [| reflexivity]. rewrite responses_diagnostic.
    split; [done |]. intros i r Hi. done.
Qed.

Lemma run_tools_only_last fuel : forall tcs s s' o (i : nat) r,
  _run_tools fuel tcs s = (s', o) ->
  responses (since s s') !! i = Some r ->
  requests_tools r = false ->
  length (responses (since s s')) = S i.
Proof.
  induction fuel as [|fuel IH]; intros tcs s s' o i r H Hi Hr.
  - inversion H; subst. unfold since in Hi. by rewrite drop_all in Hi.
  - destruct (responses (since s s')) as [|r0 rs] eqn:Hrs; [done |].
    assert (H0 : responses (since s s') !! 0%nat = Some r0) by (by rewrite Hrs).
    destruct (run_tools_inv_response _ _ _ _ _ _ H H0)
      as (fuel' & s1 & w & [= <-] & _ & _ & Hst & Hres).
    rewrite Hrs in Hres. injection Hres as ->.
    apply (settle_only_last_from fuel IH) in Hst as [Hq Hlast].
    destruct i as [|i]; simpl in *.
    + injection Hi as ->. by rewrite (Hq Hr).
    + f_equal. by eapply Hlast.
Qed.

(** X8: the loop asks the provider again only after a response that requested
    tools: in the responses of one [invoke], a response that requests none
    (or whose [tool_calls] cannot be read) can only be the last. *)
Theorem only_the_last_response_requests_no_tool fuel message s (i : nat) r :
  responses (since s (invoke fuel message s).1) !! i = Some r ->
  requests_tools r = false ->
  length (responses (since s (invoke fuel message s).1)) = S i.
Proof.
  rewrite invoke_trace.
  change (responses (Print ?t :: ?d)) with (responses d).
  destruct (execute fuel (with_user_turn message s)) as [s' o] eqn:H. simpl.
  intros Hi Hr.
  destruct (responses (since (with_user_turn message s) s')) as [|r0 rs] eqn:Hrs;
    [done |].
  assert (H0 : responses (since (with_user_turn message s) s') !! 0%nat = Some r0)
    by (by rewrite Hrs).
  destruct (execute_inv_response _ _ _ _ _ H H0) as (w & _ & Hx & Hres).
  rewrite Hrs in Hres. injection Hres as ->.
  assert (Hst : exists o', settle fuel r0 (received r0 w (with_user_turn message s)) =
                           (s', o')).
  { apply bind_inv in Hx as [(s1 & r' & H1 & Hx) | [(e & H1 & _) | (H1 & _)]];
      [inversion Hx; subst | |]; by eexists. }
  destruct Hst as [o' Hst].
  apply (settle_only_last_from fuel (run_tools_only_last fuel)) in Hst as [Hq Hlast].
  destruct i as [|i]; simpl in *.
  - injection Hi as ->. by rewrite (Hq Hr).
  - f_equal. by eapply Hlast.
Qed.


(** ** Every run of a callable answers a request *)

(** The requests a response carries. *)
Definition requests_of (r : Response) : list ToolCall :=
  match tool_calls r with
  | TCList l => l
  | _ => []
  end.

(** The requests of the responses of a stretch of trace. *)
Definition requested (d : list Event) : list ToolCall :=
  concat (requests_of <$> responses d).

(** [ev] is the run, for the request [tc], of the callable the registry
    holds under the function name of [tc], on the arguments of [tc] as
    [json.loads] decodes them. *)
Definition answers_request (reg : gmap string Tool) (tc : ToolCall) (ev : Event)
    : Prop :=
  match ev with
  | ToolRun fname args res =>
      fname = fn_name (tc_function tc) /\
      json_loads (fn_arguments (tc_function tc)) = Some args /\
      exists (f : Tool) w w', reg !! fname = Some f /\ f args w = (w', res)
  | _ => False
  end.

(** Reading the trace from its start with the requests known so far: each
    response adds its requests, each run of a callable answers a known
    request. *)
Fixpoint justified (reg : gmap string Tool) (known : list ToolCall)
    (d : list Event) : Prop :=
  match d with
  | [] => True
  | Completion _ (Returns r) :: d' => justified reg (known ++ requests_of r) d'
  | ToolRun fname args res :: d' =>
      (exists tc, tc ∈ known /\ answers_request reg tc (ToolRun fname args res)) /\
      justified reg known d'
  | _ :: d' => justified reg known d'
  end.

Lemma requested_app d1 d2 : requested (d1 ++ d2) = requested d1 ++ requested d2.
Proof. unfold requested. by rewrite responses_app, fmap_app, concat_app. Qed.

Lemma requested_no_completions d : completions d = [] -> requested d = [].
Proof. intros H. unfold requested. by rewrite (responses_no_completions _ H). Qed.

Lemma justified_app reg d1 : forall known d2,
  justified reg known (d1 ++ d2) <->
  justified reg known d1 /\ justified reg (known ++ requested d1) d2.
Proof.
  induction d1 as [|ev d1 IH]; intros known d2.
  - unfold requested. simpl. rewrite app_nil_r. tauto.
  - destruct ev as [t|req [r|e]|fname args res]; simpl.
    + apply IH.
    + rewrite IH. unfold requested. simpl. by rewrite app_assoc.
    + apply IH.
    + rewrite IH. tauto.
Qed.

Lemma justified_mono reg d : forall known known',
  (forall tc, tc ∈ known -> tc ∈ known') ->
  justified reg known d -> justified reg known' d.
Proof.
  induction d as [|ev d IH]; intros known known' Hsub; [done |].
  destruct ev as [t|req [r|e]|fname args res]; simpl.
  - by apply IH.
  - apply IH. intros tc [H|H]%elem_of_app; apply elem_of_app; auto.
  - by apply IH.
  - intros [(tc & Hin & Ha) H]. split; [exists tc; auto | by eapply IH].
Qed.

Lemma justified_lookup reg known d pre fname args res post :
  justified reg known d ->
  d = pre ++ ToolRun fname args res :: post ->
  exists tc,
    tc ∈ known ++ requested pre /\
    answers_request reg tc (ToolRun fname args res).
Proof.
  intros H ->. apply justified_app in H as [_ H]. simpl in H. by destruct H.
Qed.

Lemma run_tool_justified tc known s s' o :
  tc ∈ known ->
  run_tool tc s = (s', o) ->
  exists d,
    trace s' = trace s ++ d /\ completions d = [] /\
    justified (available_tools (self s)) known d /\
    available_tools (self s') = available_tools (self s).
Proof.
  intros Hin.
  unfold run_tool, bind, get_self, print, call_tool, messages_append, with_self, log.
  simpl.
  destruct (available_tools (self s) !! fn_name (tc_function tc)) as [f|] eqn:Hf; simpl.
  2:{ intros [= <- <-]. exists []. by rewrite app_nil_r. }
  destruct (json_loads (fn_arguments (tc_function tc))) as [args|] eqn:Ha; simpl.
  2:{ intros [= <- <-]. exists []. by rewrite app_nil_r. }
  destruct (f args (world s)) as [w [text|e]] eqn:Hr; simpl; intros [= <- <-]; simpl;
    (eexists; split; [by rewrite <- !app_assoc |]); (split; [done |]);
    (split; [| done]); simpl; (split; [| done]);
    exists tc; (split; [done |]); (split; [done |]); (split; [done |]);
    by exists f, (world s), w.
Qed.

Lemma for_each_justified tcs known : forall s s' o,
  (forall tc, tc ∈ tcs -> tc ∈ known) ->
  for_each tcs run_tool s = (s', o) ->
  exists d,
    trace s' = trace s ++ d /\ completions d = [] /\
    justified (available_tools (self s)) known d /\
    available_tools (self s') = available_tools (self s).
Proof.
  induction tcs as [|tc tcs IH]; intros s s' o Hsub; simpl.
  - intros [= <- <-]. exists []. by rewrite app_nil_r.
  - intros H.
    assert (Htc : tc ∈ known) by (apply Hsub; left).
    assert (Hrest : forall x, x ∈ tcs -> x ∈ known) by (intros x Hx; apply Hsub; by right).
    apply bind_inv in H as [(s1 & [] & H1 & H) | [(e & H1 & ->) | (H1 & ->)]];
      apply (run_tool_justified _ _ _ _ _ Htc) in H1 as (d1 & Ht1 & Hc1 & Hj1 & Hreg1);
      [| by exists d1 | by exists d1].
    apply (IH _ _ _ Hrest) in H as (d2 & Ht2 & Hc2 & Hj2 & Hreg2).
    exists (d1 ++ d2). split; [by rewrite Ht2, Ht1, app_assoc |].
    split; [by rewrite completions_app, Hc1, Hc2 |].
    split; [| by rewrite Hreg2].
    apply justified_app. split; [done |].
    rewrite (requested_no_completions _ Hc1), app_nil_r. by rewrite <- Hreg1.
Qed.

Lemma settle_justified_from fuel :
  (forall tcs known s s' o,
     (forall tc, tc ∈ tcs -> tc ∈ known) ->
     _run_tools fuel tcs s = (s', o) ->
     exists d,
       trace s' = trace s ++ d /\
       justified (available_tools (self s)) known d /\
       available_tools (self s') = available_tools (self s)) ->
  forall r known s s' o,
    (forall tc, tc ∈ requests_of r -> tc ∈ known) ->
    settle fuel r s = (s', o) ->
    exists d,
      trace s' = trace s ++ d /\
      justified (available_tools (self s)) known d /\
      available_tools (self s') = available_tools (self s).
Proof.
  intros IH r known s s' o Hsub H. unfold settle in H. unfold requests_of in Hsub.
  apply try_except_inv in H as [[Hb _] | (s1 & e & Hb & _ & Hh)].
  - unfold get_tool_calls, bind in Hb.
    destruct (tool_calls r) as [| |[|tc l]]; simpl in Hb.
    + inversion Hb; subst. exists []. by rewrite app_nil_r.
    + inversion Hb; subst. exists []. by rewrite app_nil_r.
    + inversion Hb; subst. exists []. by rewrite app_nil_r.
    + by apply (IH _ _ _ _ _ Hsub) in Hb.
  - unfold bind, print, ret in Hh. simpl in Hh. inversion Hh; subst. clear Hh.
    unfold get_tool_calls, bind in Hb.
    destruct (tool_calls r) as [| |[|tc l]]; simpl in Hb.
    + inversion Hb; subst. by exists [Print no_tool_call].
    + inversion Hb.
    + inversion Hb.
    + apply (IH _ _ _ _ _ Hsub) in Hb as (d & Ht & Hj & Hreg).
      exists (d ++ [Print no_tool_call]). simpl.
      split; [by rewrite Ht, app_assoc |]. split; [| done].
      apply justified_app. done.
Qed.

Lemma run_tools_justified fuel : forall tcs known s s' o,
  (forall tc, tc ∈ tcs -> tc ∈ known) ->
  _run_tools fuel tcs s = (s', o) ->
  exists d,
    trace s' = trace s ++ d /\
    justified (available_tools (self s)) known d /\
    available_tools (self s') = available_tools (self s).
Proof.
  induction fuel as [|fuel IH]; intros tcs known s s' o Hsub H.
  - inversion H; subst. exists []. by rewrite app_nil_r.
  - rewrite run_tools_step in H.
    apply bind_inv in H as [(s1 & [] & H1 & H) | [(e & H1 & ->) | (H1 & ->)]];
      apply (for_each_justified _ _ _ _ _ Hsub) in H1 as (d1 & Ht1 & Hc1 & Hj1 & Hreg1);
      [| by exists d1 | by exists d1].
    destruct (completion (request_of (self s1)) (world s1)) as [w [r|e]] eqn:Hc.
    + rewrite (call_llm_Returns _ _ _ _ Hc) in H.
      apply (settle_justified_from fuel IH r (known ++ requests_of r)) in H
        as (d3 & Ht3 & Hj3 & Hreg3);
        [| intros tc Htc; apply elem_of_app; by right].
      simpl in Ht3, Hj3, Hreg3.
      eexists (d1 ++ [_; _] ++ d3). split; [by rewrite Ht3, Ht1, <- !app_assoc |].
      split; [| by rewrite Hreg3].
      apply justified_app. split; [done |].
      rewrite (requested_no_completions _ Hc1), app_nil_r. simpl.
      by rewrite <- Hreg1.
    + rewrite (call_llm_Raises _ _ _ _ Hc) in H. inversion H; subst.
      eexists (d1 ++ [_; _]). simpl. split; [by rewrite Ht1, <- !app_assoc |].
      split; [| done]. apply justified_app. done.
Qed.

Lemma execute_justified fuel known s s' o :
  execute fuel s = (s', o) ->
  exists d,
    trace s' = trace s ++ d /\
    justified (available_tools (self s)) known d /\
    available_tools (self s') = available_tools (self s).
Proof.
  intros H. rewrite execute_step in H.
  destruct (completion (request_of (self s)) (world s)) as [w [r|e]] eqn:Hc.
  - rewrite (call_llm_Returns _ _ _ _ Hc) in H.
    assert (Hst : exists o', settle fuel r (received r w s) = (s', o')).
    { apply bind_inv in H as [(s1 & r' & H1 & H) | [(e & H1 & _) | (H1 & _)]];
        [inversion H; subst | |]; by eexists. }
    destruct Hst as [o' Hst].
    apply (settle_justified_from fuel (run_tools_justified fuel) r
             (known ++ requests_of r)) in Hst as (d3 & Ht3 & Hj3 & Hreg3);
      [| intros tc Htc; apply elem_of_app; by right].
    simpl in Ht3, Hj3, Hreg3.
    eexists ([_; _] ++ d3). split; [by rewrite Ht3, <- !app_assoc |]. done.
  - rewrite (call_llm_Raises _ _ _ _ Hc) in H. inversion H; subst.
    by eexists [_; _].
Qed.

Lemma invoke_grows fuel message s : trace_grows s (invoke fuel message s).1.
Proof.
  destruct (invoke fuel message s) as [s' o] eqn:H.
  apply invoke_spec in H as (d & Ht & _). by eexists.
Qed.

Lemma run_call_justified fuel c known s :
  exists d,
    trace (run_call fuel c s).1 = trace s ++ d /\
    justified (available_tools (self s)) known d /\
    available_tools (self (run_call fuel c s).1) = available_tools (self s).
Proof.
  destruct c as [message| |]; simpl.
  - destruct (execute fuel (with_user_turn message s)) as [s1 o] eqn:Hx.
    pose proof (invoke_trace fuel message s) as Ht. rewrite Hx in Ht. simpl in Ht.
    apply (execute_justified fuel known) in Hx as (d & Hd & Hj & _).
    rewrite (since_app _ _ _ Hd) in Ht.
    exists (Print (Fore_GREEN +:+ "Calling agent: " +:+ name (self s) +:+ nl) :: d).
    assert (Hk : only_messages s (invoke fuel message s).1)
      by apply invoke_only_messages.
    apply only_messages_fields in Hk as (_ & _ & _ & _ & Hreg).
    assert (Hs : (bind (invoke fuel message) (fun _ => ret tt) s).1 =
                 (invoke fuel message s).1).
    { unfold bind. by destruct (invoke fuel message s) as [s2 [x|e|]]. }
    rewrite Hs. split; [| by split].
    destruct (invoke_grows fuel message s) as [d' Hd'].
    rewrite (since_app _ _ _ Hd') in Ht. by rewrite Hd', Ht.
  - destruct (execute fuel s) as [s1 o] eqn:Hx.
    assert (Hs : (bind (execute fuel) (fun _ => ret tt) s).1 = s1).
    { unfold bind. rewrite Hx. by destruct o. }
    rewrite Hs. by apply (execute_justified fuel known) in Hx.
  - rewrite reset_eq. exists []. simpl. by rewrite app_nil_r.
Qed.

Lemma run_calls_justified fuel cs : forall known s,
  exists d,
    trace (run_calls fuel cs s) = trace s ++ d /\
    justified (available_tools (self s)) known d.
Proof.
  induction cs as [|c cs IH]; intros known s; simpl.
  - exists []. by rewrite app_nil_r.
  - destruct (run_call_justified fuel c known s) as (d1 & Ht1 & Hj1 & Hreg1).
    destruct (IH (known ++ requested d1) (run_call fuel c s).1) as (d2 & Ht2 & Hj2).
    exists (d1 ++ d2). split; [by rewrite Ht2, Ht1, app_assoc |].
    apply justified_app. split; [done |]. by rewrite <- Hreg1.
Qed.

(** X3: over any sequence of [invoke], [execute] and [reset] calls, a
    callable is only ever run in answer to a request: for every run in the
    trace, a response received earlier in the trace carries a request
    whose function name is the name the callable is registered under, and
    whose arguments, decoded by [json.loads], are what the callable was
    applied to.  Nothing outside [available_tools], and nothing the
    provider did not ask for, is called. *)
Theorem every_tool_run_answers_a_request
    fuel (cs : list Call) s pre fname args res post :
  since s (run_calls fuel cs s) = pre ++ ToolRun fname args res :: post ->
  exists r tcs tc,
    r ∈ responses pre /\
    tool_calls r = TCList tcs /\
    tc ∈ tcs /\
    fname = fn_name (tc_function tc) /\
    json_loads (fn_arguments (tc_function tc)) = Some args /\
    exists (f : Tool) w w',
      available_tools (self s) !! fname = Some f /\ f args w = (w', res).
Proof.
  intros H. destruct (run_calls_justified fuel cs [] s) as (d & Ht & Hj).
  rewrite (since_app _ _ _ Ht) in H.
  destruct (justified_lookup _ _ _ _ _ _ _ _ Hj H) as (tc & Hin & Hname & Hargs & Hrun).
  simpl in Hin. unfold requested in Hin.
  apply list_elem_of_In, in_concat in Hin as (l & Hl & Htc).
  apply list_elem_of_In, list_elem_of_fmap in Hl as (r & -> & Hr).
  apply list_elem_of_In in Htc.
  unfold requests_of in Htc.
  destruct (tool_calls r) as [| |tcs] eqn:Htcs; try by apply elem_of_nil in Htc.
  by exists r, tcs, tc.
Qed.

End Further.

(** * The theorems at work on the stand-ins *)

Import Stub.

Example plain_invoke :
  invoke 0 "hi" (start plain [says "ok"]) =
  ({| self := plain; world := [];
      trace := [Print (Fore_GREEN +:+ "Calling agent: bot" +:+ nl);
                Print (Fore_GREEN +:+ "LLM Call" +:+ nl);
                Completion {| req_model := "gpt-4o"; req_messages := [Turn user "hi"];
                              req_tools := None; req_temperature := 1 # 10 |}
                  (says "ok")] |},
   Ret "ok").
Proof. vm_compute. reflexivity. Qed.

Example one_tool_round :
  (invoke 1 "compute" (start adder [asks "" [add_1_2 "c1"]; says "done"])).2 = Ret "done" /\
  tool_results (trace (invoke 1 "compute"
                  (start adder [asks "" [add_1_2 "c1"]; says "done"])).1) = ["3"].
Proof. split; vm_compute; reflexivity. Qed.

Example out_of_fuel :
  (invoke 0 "compute" (start adder [asks "" [add_1_2 "c1"]; says "done"])).2 = Diverge.
Proof. vm_compute. reflexivity. Qed.

Lemma invoke_returns_the_last_response_witness :
  invoke 1 "compute" two_requests = ((invoke 1 "compute" two_requests).1, Ret "done") /\
  exists r,
    last (responses (since two_requests (invoke 1 "compute" two_requests).1)) = Some r /\
    "done" = content r /\
    (requests_tools r = true ->
     Print no_tool_call ∈ since two_requests (invoke 1 "compute" two_requests).1).
Proof.
  split; [vm_compute; reflexivity |].
  apply (proj1 invoke_returns_the_last_response 1 "compute" two_requests).
  vm_compute. reflexivity.
Defined.

(** C1 fails as stated: no tool is registered, the provider's only response
    asks for one; [invoke] returns normally, with the text of that
    tool-requesting response. *)
Lemma invoke_returns_a_tool_requesting_response :
  invoke 1 "hi" unknown_tool = ((invoke 1 "hi" unknown_tool).1, Ret "thinking") /\
  responses (since unknown_tool (invoke 1 "hi" unknown_tool).1) = [asks_sub] /\
  requests_tools asks_sub = true.
Proof. repeat split; vm_compute; reflexivity. Qed.

Lemma dispatch_exceptions_are_caught_witness :
  (_call_llm (with_user_turn "hi" failing_tool) =
     ((_call_llm (with_user_turn "hi" failing_tool)).1, Ret asks_div) /\
   tool_calls asks_div = TCList [div_1_0 "c1"] /\
   (for_each [div_1_0 "c1"] run_tool
      (appended (FromProvider asks_div) (_call_llm (with_user_turn "hi" failing_tool)).1)).2 =
     Raise (OtherException "ZeroDivisionError")) /\
  invoke 1 "hi" failing_tool =
    ((reset (appended (Turn assistant "one moment")
               (log (Print no_tool_call)
                  (for_each [div_1_0 "c1"] run_tool
                     (appended (FromProvider asks_div)
                        (_call_llm (with_user_turn "hi" failing_tool)).1)).1))).1,
     Ret "one moment").
Proof.
  split; [repeat split; vm_compute; reflexivity |].
  apply (proj1 (proj2 dispatch_exceptions_are_caught) 0 "hi" failing_tool
           (_call_llm (with_user_turn "hi" failing_tool)).1 asks_div
           (div_1_0 "c1") [] _ (OtherException "ZeroDivisionError"));
    vm_compute; reflexivity.
Defined.

(** C2 fails as stated: a tool name absent from the registry, and a
    registered callable that raises, both leave [invoke] returning text. *)
Lemma failed_dispatch_does_not_abort_invoke :
  (available_tools (self unknown_tool) !! "sub" = None /\
   (invoke 1 "hi" unknown_tool).2 = Ret "thinking") /\
  (fails (OtherException "ZeroDivisionError") (object_a_b "1" "0") (world failing_tool) =
     (world failing_tool, Raises (OtherException "ZeroDivisionError")) /\
   tool_results (trace (invoke 1 "hi" failing_tool).1) = [] /\
   (invoke 1 "hi" failing_tool).2 = Ret "one moment").
Proof. repeat split; vm_compute; reflexivity. Qed.

Lemma session_is_the_seed_after_each_invoke_witness :
  invoke_each 1 ["compute"; "hi"] two_calls !! 1%nat =
    Some ((invoke 1 "hi" (invoke 1 "compute" two_calls).1).1, Ret "ok") /\
  messages (self (invoke 1 "hi" (invoke 1 "compute" two_calls).1).1) =
    [Turn system "Be brief."].
Proof.
  split; [vm_compute; reflexivity |].
  apply (session_is_the_seed_after_each_invoke 1 ["compute"; "hi"] two_calls 1 _ "ok").
  vm_compute. reflexivity.
Defined.

Lemma tool_requests_are_answered_before_the_next_call_witness :
  (_call_llm (with_user_turn "compute" two_requests) =
     ((_call_llm (with_user_turn "compute" two_requests)).1, Ret asks_two) /\
   tool_calls asks_two = TCList [add_1_2 "c1"; add_1_2 "c2"] /\
   for_each [add_1_2 "c1"; add_1_2 "c2"] run_tool
     (appended (FromProvider asks_two)
        (_call_llm (with_user_turn "compute" two_requests)).1) =
     ((for_each [add_1_2 "c1"; add_1_2 "c2"] run_tool
         (appended (FromProvider asks_two)
            (_call_llm (with_user_turn "compute" two_requests)).1)).1, Ret tt)) /\
  messages (self (for_each [add_1_2 "c1"; add_1_2 "c2"] run_tool
                    (appended (FromProvider asks_two)
                       (_call_llm (with_user_turn "compute" two_requests)).1)).1) =
    [Turn system "Be brief."; Turn user "compute"; FromProvider asks_two;
     ToolResult "c1" "add" "3"; ToolResult "c2" "add" "3"] /\
  exists (texts : list string) res d,
    length texts = 2%nat /\
    since (with_user_turn "compute" two_requests)
      (execute 1 (with_user_turn "compute" two_requests)).1 =
    since (with_user_turn "compute" two_requests)
      (for_each [add_1_2 "c1"; add_1_2 "c2"] run_tool
         (appended (FromProvider asks_two)
            (_call_llm (with_user_turn "compute" two_requests)).1)).1 ++
    Print (Fore_GREEN +:+ "LLM Call" +:+ nl) ::
    Completion
      (request_of
         (self (for_each [add_1_2 "c1"; add_1_2 "c2"] run_tool
                  (appended (FromProvider asks_two)
                     (_call_llm (with_user_turn "compute" two_requests)).1)).1))
      res :: d.
Proof.
  split; [repeat split; vm_compute; reflexivity |].
  split; [vm_compute; reflexivity |].
  destruct (proj1 tool_requests_are_answered_before_the_next_call 0
              (with_user_turn "compute" two_requests)
              (_call_llm (with_user_turn "compute" two_requests)).1
              asks_two (add_1_2 "c1") [add_1_2 "c2"] _
              ltac:(vm_compute; reflexivity) eq_refl eq_refl)
    as (texts & res & d & Hlen & _ & _ & _ & Ht & _).
  by exists texts, res, d.
Defined.

Lemma unreadable_tool_calls_count_as_none_witness :
  (execute 0 unreadable = ((execute 0 unreadable).1, Ret "hello") /\
   bare ∈ responses (since unreadable (execute 0 unreadable).1) /\
   tool_calls bare = TCMissing) /\
  Ret "hello" = Ret (content bare) /\
  exists d0 req,
    since unreadable (execute 0 unreadable).1 =
      d0 ++ [Completion req (Returns bare); Print no_tool_call].
Proof.
  split.
  - split; [vm_compute; reflexivity |]. split; [| reflexivity].
    apply list_elem_of_here.
  - apply (unreadable_tool_calls_count_as_none 0 unreadable (execute 0 unreadable).1
             (Ret "hello") bare).
    + vm_compute. reflexivity.
    + apply list_elem_of_here.
    + left. reflexivity.
Defined.

Lemma two_requests_then_none_witness :
  (messages (self two_requests) = [Turn system "Be brief."] /\
   responses (since two_requests (invoke_before_reset 1 "compute" two_requests).1) =
     [asks_two; done] /\
   tool_calls asks_two = TCList [add_1_2 "c1"; add_1_2 "c2"] /\
   requests_tools done = false) /\
  exists x1 x2,
    (invoke_before_reset 1 "compute" two_requests).2 = Ret "done" /\
    messages (self (invoke_before_reset 1 "compute" two_requests).1) =
      [Turn system "Be brief."; Turn user "compute"; FromProvider asks_two;
       ToolResult "c1" "add" x1; ToolResult "c2" "add" x2;
       FromProvider done; Turn assistant "done"] /\
    invoke 1 "compute" two_requests =
      ((reset (invoke_before_reset 1 "compute" two_requests).1).1, Ret "done").
Proof.
  split; [repeat split; vm_compute; reflexivity |].
  apply (two_requests_then_none 1 "compute" two_requests
           (invoke_before_reset 1 "compute" two_requests).1
           (invoke_before_reset 1 "compute" two_requests).2
           asks_two done (add_1_2 "c1") (add_1_2 "c2"));
    vm_compute; reflexivity.
Defined.

(** C6 fails as stated: in that scenario the session state before the
    final [reset] has seven turns, the last being the assistant turn
    [invoke] appends after the second response; it is not the list of six
    the claim gives. *)
Lemma session_before_reset_has_a_seventh_turn :
  (invoke_before_reset 1 "compute" two_requests).2 = Ret "done" /\
  messages (self (invoke_before_reset 1 "compute" two_requests).1) =
    [Turn system "Be brief."; Turn user "compute"; FromProvider asks_two;
     ToolResult "c1" "add" "3"; ToolResult "c2" "add" "3";
     FromProvider done; Turn assistant "done"] /\
  messages (self (invoke_before_reset 1 "compute" two_requests).1) <>
    [Turn system "Be brief."; Turn user "compute"; FromProvider asks_two;
     ToolResult "c1" "add" "3"; ToolResult "c2" "add" "3";
     FromProvider done].
Proof.
  split; [vm_compute; reflexivity |]. split; [vm_compute; reflexivity |].
  vm_compute. discriminate.
Qed.

(** ** Further scenarios *)

(** The provider cannot be reached. *)
Definition offline : State := start plain [].

(** Two callables, one of which raises. *)
Definition mixed : Agent :=
  __init__ "calc" "gpt-4o" []
    (<["add" := answers "3"]> {[ "div" := fails (OtherException "ZeroDivisionError") ]})
    "".

Lemma failed_invoke_leaves_its_user_turn_witness :
  (invoke 0 "hi" offline =
     ((invoke 0 "hi" offline).1, Raise (OtherException "APIConnectionError")) /\
   is_Exception (OtherException "APIConnectionError") = true) /\
  messages (self (invoke 0 "hi" offline).1) = [Turn user "hi"].
Proof.
  split; [split; vm_compute; reflexivity |].
  apply (failed_invoke_leaves_its_user_turn 0 "hi" offline (invoke 0 "hi" offline).1
           (OtherException "APIConnectionError")); vm_compute; reflexivity.
Defined.

Lemma requests_extend_one_another_witness :
  (request_messages (since two_requests (invoke 1 "compute" two_requests).1) !! 0%nat =
     Some [Turn system "Be brief."; Turn user "compute"] /\
   request_messages (since two_requests (invoke 1 "compute" two_requests).1) !! 1%nat =
     Some [Turn system "Be brief."; Turn user "compute"; FromProvider asks_two;
           ToolResult "c1" "add" "3"; ToolResult "c2" "add" "3"]) /\
  [Turn system "Be brief."; Turn user "compute"] `prefix_of`
    [Turn system "Be brief."; Turn user "compute"; FromProvider asks_two;
     ToolResult "c1" "add" "3"; ToolResult "c2" "add" "3"].
Proof.
  split; [split; vm_compute; reflexivity |].
  apply (requests_extend_one_another 1 "compute" two_requests 0 1);
    [lia | vm_compute; reflexivity | vm_compute; reflexivity].
Defined.

Lemma tools_are_called_in_request_order_witness :
  for_each [add_1_2 "c1"; add_1_2 "c2"] run_tool (start adder []) =
    ((for_each [add_1_2 "c1"; add_1_2 "c2"] run_tool (start adder [])).1, Ret tt) /\
  called (since (start adder [])
            (for_each [add_1_2 "c1"; add_1_2 "c2"] run_tool (start adder [])).1) =
    ["add"; "add"].
Proof.
  split; [vm_compute; reflexivity |].
  apply (tools_are_called_in_request_order [add_1_2 "c1"; add_1_2 "c2"]
           (start adder []) _ (Ret tt)); vm_compute; reflexivity.
Defined.

Lemma dispatch_stops_at_the_first_failure_witness :
  for_each [add_1_2 "c1"; div_1_0 "c2"; add_1_2 "c3"] run_tool
      (start mixed []) =
    ((for_each [add_1_2 "c1"; div_1_0 "c2"; add_1_2 "c3"] run_tool
        (start mixed [])).1,
     Raise (OtherException "ZeroDivisionError")) /\
  messages (self (for_each [add_1_2 "c1"; div_1_0 "c2"; add_1_2 "c3"]
                    run_tool (start mixed [])).1) =
    [ToolResult "c1" "add" "3"] /\
  exists before failed after (texts : list string),
    [add_1_2 "c1"; div_1_0 "c2"; add_1_2 "c3"] =
      before ++ failed :: after /\
    length texts = length before /\
    length (called (since (start mixed [])
               (for_each [add_1_2 "c1"; div_1_0 "c2"; add_1_2 "c3"]
                  run_tool (start mixed [])).1)) <= S (length before).
Proof.
  split; [vm_compute; reflexivity |]. split; [vm_compute; reflexivity |].
  destruct (dispatch_stops_at_the_first_failure
              [add_1_2 "c1"; div_1_0 "c2"; add_1_2 "c3"]
              (start mixed []) _ (OtherException "ZeroDivisionError") eq_refl)
    as (before & failed & after & texts & Htcs & Hlen & _ & Hc & _).
  by exists before, failed, after, texts.
Defined.

Lemma only_the_last_response_requests_no_tool_witness :
  (responses (since two_requests (invoke 1 "compute" two_requests).1) !! 1%nat =
     Some done /\
   requests_tools done = false) /\
  length (responses (since two_requests (invoke 1 "compute" two_requests).1)) = 2%nat.
Proof.
  split; [split; vm_compute; reflexivity |].
  apply (only_the_last_response_requests_no_tool 1 "compute" two_requests 1 done);
    vm_compute; reflexivity.
Defined.

Lemma every_tool_run_answers_a_request_witness :
  since two_requests (run_calls 1 [CallInvoke "compute"] two_requests) =
    take 5 (since two_requests (run_calls 1 [CallInvoke "compute"] two_requests)) ++
    ToolRun "add" (object_a_b "1" "2") (Returns "3") ::
    drop 6 (since two_requests (run_calls 1 [CallInvoke "compute"] two_requests)) /\
  exists r tcs tc,
    r ∈ responses
          (take 5 (since two_requests (run_calls 1 [CallInvoke "compute"] two_requests))) /\
    tool_calls r = TCList tcs /\
    tc ∈ tcs /\
    "add" = fn_name (tc_function tc) /\
    json_loads (fn_arguments (tc_function tc)) = Some (object_a_b "1" "2").
Proof.
  split; [vm_compute; reflexivity |].
  destruct (every_tool_run_answers_a_request 1 [CallInvoke "compute"] two_requests
              (take 5 (since two_requests
                         (run_calls 1 [CallInvoke "compute"] two_requests)))
              "add" (object_a_b "1" "2") (Returns "3")
              (drop 6 (since two_requests
                         (run_calls 1 [CallInvoke "compute"] two_requests)))
              ltac:(vm_compute; reflexivity))
    as (r & tcs & tc & Hr & Htcs & Htc & Hname & Hargs & _).
  by exists r, tcs, tc.
Defined.

(** Arguments that are not JSON (the keys are not quoted): [json.loads]
    raises, the handler of [execute] catches it, no callable is run, and
    [invoke] returns the text of the response that asked. *)
Example malformed_arguments :
  let s := start adder [asks "wait" [call "c1" "add" "{a:1,b:2}"]; says "done"] in
  (invoke 1 "compute" s).2 = Ret "wait" /\
  called (trace (invoke 1 "compute" s).1) = [] /\
  messages (self (invoke_before_reset 1 "compute" s).1) =
    [Turn system "Be brief."; Turn user "compute";
     FromProvider {| content := "wait";
                     tool_calls := TCList [call "c1" "add" "{a:1,b:2}"] |};
     Turn assistant "wait"].
Proof. repeat split; vm_compute; reflexivity. Qed.
